(** * Sentinel guard agent: presence tracking and warning escalation

    A shallow embedding of [src/sentinel.py] (class [SentinelAgent]) and the
    properties of its presence / escalation state machine.

    Modelling choices.
    - A timestamp returned by [time.time()] is a double; it is represented
      by the rational number it denotes ([Q]). The two subtractions of
      timestamps (lines 74 and 140) are double subtractions: the exact
      difference rounded to the nearest double, ties to even
      ([double_sub]). The thresholds 3, 10 and 5 are the source's integer
      literals, with which Python compares a float exactly.
    - The four "intruder detection state variables" of [__init__] form the
      record [SentinelAgent]; the TTS engine, the recogniser and the trusted
      encodings are external collaborators and only show up through what the
      loop observes of them.
    - A face encoding found in a frame is represented by the list of booleans
      that [face_recognition.compare_faces] returns for it.
    - [speak] and [cv2.imwrite] are recorded as a list of [Effect]s, in program
      order; console [print]s (among them the name lookup of lines 129-131,
      which cannot fail since names and encodings are appended together) and
      [cv2.imshow] are not recorded.
    - The loop body reads the clock once (line 139 or line 140) and
      [handle_intruder_escalation] reads it again (line 64); a [Frame] carries
      both readings and no relation between them is assumed.
    - [current_time - self.last_warning_time] raises [TypeError] in Python when
      the attribute is [None]; the embedding keeps that failure ([Raises]). *)

From Stdlib Require Import ZArith QArith Lqa Lia Bool List String Ascii
  DecimalString DecimalZ.
Import ListNotations.

Open Scope Z_scope.
Open Scope Q_scope.

(** ** Outcomes of a call: normal return or an uncaught exception *)

Inductive PyError : Type :=
| TypeError.

Inductive outcome (A : Type) : Type :=
| Returns (a : A)
| Raises (e : PyError).

Arguments Returns {A} a.
Arguments Raises {A} e.

Definition bind {A B : Type} (m : outcome A) (k : A -> outcome B) : outcome B :=
  match m with
  | Returns a => k a
  | Raises e => Raises e
  end.

Notation "'let*' p ':=' m 'in' k" := (bind m (fun p => k))
  (at level 10, p pattern, m at level 100, k at level 200).

(** ** Data *)

(** The state variables set up by [SentinelAgent.__init__] (lines 25-29). *)
Record SentinelAgent : Type := mkAgent {
  intruder_detected : bool;
  last_warning_time : option Q;
  escalation_level : Z;
  unrecognized_face_start_time : option Q
}.

(** Line 32. *)
Definition GRACE_PERIOD_SECONDS : Q := 3.

(** The agent right after [__init__]. *)
Definition init_agent : SentinelAgent :=
  {| intruder_detected := false;
     last_warning_time := None;
     escalation_level := 0;
     unrecognized_face_start_time := None |}.

Definition set_intruder_detected (b : bool) (self : SentinelAgent) : SentinelAgent :=
  {| intruder_detected := b;
     last_warning_time := last_warning_time self;
     escalation_level := escalation_level self;
     unrecognized_face_start_time := unrecognized_face_start_time self |}.

Definition set_last_warning_time (t : option Q) (self : SentinelAgent) : SentinelAgent :=
  {| intruder_detected := intruder_detected self;
     last_warning_time := t;
     escalation_level := escalation_level self;
     unrecognized_face_start_time := unrecognized_face_start_time self |}.

Definition set_escalation_level (l : Z) (self : SentinelAgent) : SentinelAgent :=
  {| intruder_detected := intruder_detected self;
     last_warning_time := last_warning_time self;
     escalation_level := l;
     unrecognized_face_start_time := unrecognized_face_start_time self |}.

Definition set_unrecognized_face_start_time (t : option Q) (self : SentinelAgent)
  : SentinelAgent :=
  {| intruder_detected := intruder_detected self;
     last_warning_time := last_warning_time self;
     escalation_level := escalation_level self;
     unrecognized_face_start_time := t |}.

(** Observable side effects of the core: [self.speak(text)] and
    [cv2.imwrite(path, frame)]. *)
Inductive Effect : Type :=
| Speak (text : string)
| Imwrite (path : string).

(** What one iteration of the monitoring loop reads from the outside world:
    the faces found in the frame (each as its [compare_faces] result), the
    value of [time.time()] read in the loop body (line 139 or 140) and the
    value read by [handle_intruder_escalation] (line 64) if it is called. *)
Record Frame : Type := mkFrame {
  face_encodings : list (list bool);
  clock_loop : Q;
  clock_escalation : Q
}.

(** The branch of the loop body that a tick takes. The source does not return
    it; it labels lines 147-148, 145-146, 137-139 / fall-through, and
    140-143 respectively. *)
Inductive PresenceDecision : Type :=
| TrustedPresent
| NoFaces
| UnknownPending
| IntruderConfirmed.

(** ** Helpers for Python primitives *)

(** [a > b] on timestamps. *)
Definition Qgtb (a b : Q) : bool := negb (Qle_bool a b).

(** Rounding of the quotient [n / d] (with [0 <= n], [0 < d]) to the nearest
    integer, ties to the even one. *)
Definition round_half_even (n d : Z) : Z :=
  let q := (n / d)%Z in
  match (2 * (n mod d) ?= d)%Z with
  | Lt => q
  | Gt => (q + 1)%Z
  | Eq => if Z.even q then q else (q + 1)%Z
  end.

(** The exponent [e] with [2 ^ e <= n / d < 2 ^ (e + 1)], for [0 < n]. *)
Definition binary_exponent (n : Z) (d : positive) : Z :=
  let e := (Z.log2 n - Z.log2 (Zpos d))%Z in
  if (Zpos d * 2 ^ Z.max 0 e <=? n * 2 ^ Z.max 0 (- e))%Z then e
  else (e - 1)%Z.

(** Rounding of a real result to binary64, to nearest with ties to even:
    the result is a multiple of [2 ^ k], where [k] leaves 53 significant
    bits and is at least -1074 (subnormal numbers). A magnitude beyond the
    largest double, which IEEE 754 rounds to an infinity, is kept at its
    rounded finite value; either way it exceeds every threshold it is
    compared with. *)
Definition double_round (x : Q) : Q :=
  let n := Z.abs (Qnum x) in
  let d := Qden x in
  if (n =? 0)%Z then 0
  else
    let k := Z.max (binary_exponent n d - 52) (-1074) in
    let m := round_half_even (n * 2 ^ Z.max 0 (- k)) (Zpos d * 2 ^ Z.max 0 k) in
    let magnitude := (m * 2 ^ Z.max 0 k)%Z # Z.to_pos (2 ^ Z.max 0 (- k)) in
    if (Qnum x <? 0)%Z then - magnitude else magnitude.

(** [a - b] on two floats. *)
Definition double_sub (a b : Q) : Q := double_round (a - b).

(** [int(x)] on a float: truncation toward zero. *)
Definition python_int (x : Q) : Z := Z.quot (Qnum x) (Zpos (Qden x)).

(** [str(n)] for an integer. *)
Definition python_str (n : Z) : string := NilZero.string_of_int (Z.to_int n).

(** [True in matches]. *)
Definition True_in (matches : list bool) : bool := existsb (fun b => b) matches.

(** Truthiness of a Python list. *)
Definition truthy {A : Type} (l : list A) : bool :=
  match l with
  | [] => false
  | _ :: _ => true
  end.

(** ** The escalation ladder (lines 62-91) *)

Definition MSG_HELLO : string :=
  "Hello? Can I help you? My owner isn't here right now."%string.
Definition MSG_NOT_TRUSTED : string :=
  "You don't seem to be on the trusted list. This area is being monitored."%string.
Definition MSG_NOT_AUTHORIZED : string :=
  "You are not authorized to be here. Your presence is being recorded. Please leave immediately."%string.
Definition MSG_WARNING : string :=
  "Warning! Intrusion detected. If you do not vacate the premises, I will have to take further action."%string.

(** Line 83: [f"intruder_{int(current_time)}.jpg"]. *)
Definition snapshot_path (current_time : Q) : string :=
  ("intruder_" ++ python_str (python_int current_time) ++ ".jpg")%string.

(** The two assignments that end every firing branch. *)
Definition advance (level : Z) (current_time : Q) (self : SentinelAgent) : SentinelAgent :=
  set_last_warning_time (Some current_time) (set_escalation_level level self).

Definition handle_intruder_escalation (current_time : Q) (self : SentinelAgent)
  : outcome (SentinelAgent * list Effect) :=
  if (escalation_level self =? 0)%Z then
    Returns (advance 1 current_time self, [Speak MSG_HELLO])
  else
    match last_warning_time self with
    | None => Raises TypeError
    | Some last =>
        let time_since_last_warning := double_sub current_time last in
        if (escalation_level self =? 1)%Z && Qgtb time_since_last_warning 10 then
          Returns (advance 2 current_time self, [Speak MSG_NOT_TRUSTED])
        else if (escalation_level self =? 2)%Z && Qgtb time_since_last_warning 10 then
          Returns (advance 3 current_time self,
                   [Speak MSG_NOT_AUTHORIZED; Imwrite (snapshot_path current_time)])
        else if (escalation_level self =? 3)%Z && Qgtb time_since_last_warning 5 then
          Returns (advance 4 current_time self, [Speak MSG_WARNING])
        else
          Returns (self, [])
    end.

(** Lines 93-100. *)
Definition reset_intruder_state (self : SentinelAgent) : SentinelAgent :=
  set_last_warning_time None
    (set_escalation_level 0
       (set_unrecognized_face_start_time None
          (set_intruder_detected false self))).

(** ** One iteration of the monitoring loop (lines 124-148) *)

(** The [for face_encoding in face_encodings] loop with its [break]
    (lines 125-133): returns [is_trusted_person_present] and the agent. *)
Fixpoint scan_faces (encodings : list (list bool)) (self : SentinelAgent)
  : bool * SentinelAgent :=
  match encodings with
  | [] => (false, self)
  | matches :: rest =>
      if True_in matches then (true, reset_intruder_state self)
      else scan_faces rest self
  end.

Definition guard_tick (f : Frame) (self : SentinelAgent)
  : outcome (SentinelAgent * list Effect * PresenceDecision) :=
  let '(is_trusted_person_present, self) := scan_faces (face_encodings f) self in
  if negb is_trusted_person_present && truthy (face_encodings f) then
    match unrecognized_face_start_time self with
    | None =>
        Returns (set_unrecognized_face_start_time (Some (clock_loop f)) self,
                 [], UnknownPending)
    | Some since =>
        if Qgtb (double_sub (clock_loop f) since) GRACE_PERIOD_SECONDS then
          let self := set_intruder_detected true self in
          let* (self, effects) := handle_intruder_escalation (clock_escalation f) self in
          Returns (self, effects, IntruderConfirmed)
        else
          Returns (self, [], UnknownPending)
    end
  else
    let self := set_unrecognized_face_start_time None self in
    if is_trusted_person_present then
      Returns (reset_intruder_state self, [], TrustedPresent)
    else
      Returns (self, [], NoFaces).

(** A sequence of ticks on the same agent, collecting the effects. *)
Fixpoint run_ticks (frames : list Frame) (self : SentinelAgent)
  : outcome (SentinelAgent * list Effect) :=
  match frames with
  | [] => Returns (self, [])
  | f :: rest =>
      let* (self, effects, _) := guard_tick f self in
      let* (self, more) := run_ticks rest self in
      Returns (self, effects ++ more)
  end.

(** ** The guard cycle (lines 102-159) and the command loop (lines 179-190) *)

(** One pass through the [while True] header and footer: the result of
    [video_capture.read()] and of [cv2.waitKey(1)]. *)
Record CameraRead : Type := mkRead {
  ret : bool;
  frame : Frame;
  waitKey : Z
}.

(** [ord('q')]. *)
Definition ord_q : Z := 113.

(** The [while True] loop over the reads the camera will deliver. The boolean
    of the result tells whether the loop was left through a [break]; it is
    [false] when the listed reads are used up with the loop still running. *)
Fixpoint guard_loop (reads : list CameraRead) (self : SentinelAgent)
  : outcome (SentinelAgent * list Effect * bool) :=
  match reads with
  | [] => Returns (self, [], false)
  | r :: rest =>
      if negb (ret r) then Returns (self, [], true)
      else
        let* (self, effects, _) := guard_tick (frame r) self in
        if (Z.land (waitKey r) 255 =? ord_q)%Z then Returns (self, effects, true)
        else
          let* (self, more, exited) := guard_loop rest self in
          Returns (self, effects ++ more, exited)
  end.

(** [start_guard_mode]; the boolean tells whether the call has returned. *)
Definition start_guard_mode (isOpened : bool) (reads : list CameraRead)
  (self : SentinelAgent) : outcome (SentinelAgent * list Effect * bool) :=
  let activated := Speak "Guard mode activated. I am now monitoring the room." in
  if negb isOpened then
    Returns (self, [activated; Speak "Error: Could not access the webcam."], true)
  else
    let* (self, effects, exited) := guard_loop reads self in
    if exited then
      Returns (self, activated :: effects ++ [Speak "Guard mode deactivated."], true)
    else
      Returns (self, activated :: effects, false).

(** [needle in command]. *)
Definition contains (needle command : string) : bool :=
  match String.index 0 needle command with
  | Some _ => true
  | None => false
  end.

(** What one iteration of [run] gets: the transcribed command and, should it
    start a guard cycle, what the camera does during that cycle. *)
Record Session : Type := mkSession {
  command : string;
  isOpened : bool;
  reads : list CameraRead
}.

(** The [while True] loop of [run] (the greeting of line 182 is left to the
    caller); the boolean is as for [guard_loop]. *)
Fixpoint command_loop (sessions : list Session) (self : SentinelAgent)
  : outcome (SentinelAgent * list Effect * bool) :=
  match sessions with
  | [] => Returns (self, [], false)
  | c :: rest =>
      if contains "guard my room" (command c) then
        let* (self, effects, exited) := start_guard_mode (isOpened c) (reads c) self in
        if exited then
          let* (self, more, stopped) := command_loop rest self in
          Returns (self, effects ++ Speak "I am ready for the next command." :: more,
                   stopped)
        else Returns (self, effects, false)
      else if contains "exit" (command c) || contains "stop" (command c) then
        Returns (self, [Speak "Shutting down. Goodbye!"], true)
      else command_loop rest self
  end.

(** ** Vocabulary of the properties *)

(** Some face of the frame matches a trusted encoding. *)
Definition trusted_present (encodings : list (list bool)) : bool :=
  existsb True_in encodings.

(** The level stays on the ladder and, off level 0, a warning time is
    recorded. *)
Definition ladder_inv (self : SentinelAgent) : Prop :=
  (0 <= escalation_level self <= 4)%Z /\
  (escalation_level self <> 0%Z -> exists t, last_warning_time self = Some t).

(** What a call of [handle_intruder_escalation] does, by level. *)
Inductive escalation_step (now : Q) (self : SentinelAgent)
  : SentinelAgent -> list Effect -> Prop :=
| step_hello :
    escalation_level self = 0%Z ->
    escalation_step now self (advance 1 now self) [Speak MSG_HELLO]
| step_not_trusted last :
    escalation_level self = 1%Z -> last_warning_time self = Some last ->
    10 < double_sub now last ->
    escalation_step now self (advance 2 now self) [Speak MSG_NOT_TRUSTED]
| step_not_authorized last :
    escalation_level self = 2%Z -> last_warning_time self = Some last ->
    10 < double_sub now last ->
    escalation_step now self (advance 3 now self)
      [Speak MSG_NOT_AUTHORIZED; Imwrite (snapshot_path now)]
| step_warning last :
    escalation_level self = 3%Z -> last_warning_time self = Some last ->
    5 < double_sub now last ->
    escalation_step now self (advance 4 now self) [Speak MSG_WARNING]
| step_wait last :
    last_warning_time self = Some last ->
    (escalation_level self = 1%Z \/ escalation_level self = 2%Z ->
     double_sub now last <= 10) ->
    (escalation_level self = 3%Z -> double_sub now last <= 5) ->
    escalation_level self <> 0%Z ->
    escalation_step now self self [].

(** Case analysis along the branches of [handle_intruder_escalation], and
    reading back the level tests that held on the branch taken. *)
Ltac escalation_branches :=
  unfold handle_intruder_escalation;
  repeat match goal with
         | |- context [match last_warning_time ?s with _ => _ end] =>
             destruct (last_warning_time s)
         | |- context [if ?c then _ else _] => destruct c eqn:?
         end.

Ltac read_level_tests :=
  repeat match goal with
         | E : _ && _ = true |- _ => apply andb_prop in E as [E _]
         | E : (_ =? _)%Z = true |- _ => apply Z.eqb_eq in E
         end.

(** Two readings of the same [last_warning_time] are the same. *)
Ltac same_last :=
  repeat match goal with
         | H1 : last_warning_time ?s = Some ?a,
           H2 : last_warning_time ?s = Some ?b |- _ =>
             assert (a = b) by congruence; subst b; clear H2
         end.

(** Consecutive calls of [handle_intruder_escalation] on the same agent; the
    log keeps, per call, the agent on entry, the effects and the agent on
    exit. *)
Fixpoint escalation_ticks (times : list Q) (self : SentinelAgent)
  : outcome (list (SentinelAgent * list Effect * SentinelAgent)) :=
  match times with
  | [] => Returns []
  | now :: rest =>
      let* (self', effects) := handle_intruder_escalation now self in
      let* log := escalation_ticks rest self' in
      Returns ((self, effects, self') :: log)
  end.

(** The agent after the last logged call. *)
Fixpoint final_agent (self : SentinelAgent)
  (log : list (SentinelAgent * list Effect * SentinelAgent)) : SentinelAgent :=
  match log with
  | [] => self
  | (_, _, after) :: rest => final_agent after rest
  end.

(** The levels at which a logged call fired, in order. *)
Definition fired (log : list (SentinelAgent * list Effect * SentinelAgent)) : list Z :=
  map (fun e => escalation_level (fst (fst e)))
      (filter (fun e => truthy (snd (fst e))) log).

(** [n] consecutive levels from [a]. *)
Fixpoint levels_from (a : Z) (n : nat) : list Z :=
  match n with
  | O => []
  | S n' => a :: levels_from (a + 1)%Z n'
  end.

(** Each logged call starts where the previous one ended and either is silent
    and changes nothing, or fires and moves one level up from below 4. *)
Fixpoint one_rung_at_a_time (self : SentinelAgent)
  (log : list (SentinelAgent * list Effect * SentinelAgent)) : Prop :=
  match log with
  | [] => True
  | (before, effects, after) :: rest =>
      before = self /\
      ((effects = [] /\ after = before) \/
       (effects <> [] /\
        escalation_level after = (escalation_level before + 1)%Z /\
        (0 <= escalation_level before < 4)%Z)) /\
      one_rung_at_a_time after rest
  end.

Definition is_snapshot (e : Effect) : bool :=
  match e with
  | Imwrite _ => true
  | Speak _ => false
  end.

Definition count_snapshots (effects : list Effect) : nat :=
  List.length (filter is_snapshot effects).

(** No face of the frame is trusted. *)
Definition untrusted (f : Frame) : Prop :=
  trusted_present (face_encodings f) = false.

Definition outcome_map {A B : Type} (g : A -> B) (m : outcome A) : outcome B :=
  match m with
  | Returns a => Returns (g a)
  | Raises e => Raises e
  end.

(** The agent at the end of a run of ticks, and at the end of a loop. *)
Definition agent_after {A : Type} (m : outcome (SentinelAgent * A))
  : outcome SentinelAgent :=
  outcome_map fst m.

Definition agent_after_loop {A B : Type} (m : outcome (SentinelAgent * A * B))
  : outcome SentinelAgent :=
  outcome_map (fun r => fst (fst r)) m.

(** The frames a guard cycle gets to process: those read before the first
    failed read, up to and including the one after which [q] is pressed. *)
Fixpoint processed (reads : list CameraRead) : list Frame :=
  match reads with
  | [] => []
  | r :: rest =>
      if negb (ret r) then []
      else if (Z.land (waitKey r) 255 =? ord_q)%Z then [frame r]
      else frame r :: processed rest
  end.

(** The frame shows faces, none of them trusted. *)
Definition unknown_only (f : Frame) : Prop :=
  face_encodings f <> [] /\ untrusted f.

(** ** The rest of the program: trusted faces, name lookup, listening *)

(** Python strings are read as their UTF-8 bytes; searching for an ASCII
    character or suffix gives the same result on bytes as on code points.
    [str.lower] depends on the Unicode tables and is taken as a parameter
    [lower] wherever the source calls it. *)

(** [s.endswith(suffix)]. *)
Definition endswith (s suffix : string) : bool :=
  (String.length suffix <=? String.length s)%nat &&
  String.eqb
    (substring (String.length s - String.length suffix) (String.length suffix) s)
    suffix.

(** Line 48: [filename.lower().endswith(('.png', '.jpg', '.jpeg'))]. *)
Definition has_image_extension (lower : string -> string) (filename : string) : bool :=
  endswith (lower filename) ".png" ||
  endswith (lower filename) ".jpg" ||
  endswith (lower filename) ".jpeg".

(** [s.rfind(c)] for a single character: the last position of [c], or -1. *)
Fixpoint rfind (c : ascii) (s : string) : Z :=
  match s with
  | EmptyString => (-1)%Z
  | String a rest =>
      let later := rfind c rest in
      if (0 <=? later)%Z then (later + 1)%Z
      else if Ascii.eqb a c then 0%Z else (-1)%Z
  end.

(** Some character of [s] differs from [c]. *)
Fixpoint some_other (c : ascii) (s : string) : bool :=
  match s with
  | EmptyString => false
  | String a rest => negb (Ascii.eqb a c) || some_other c rest
  end.

(** [os.path.splitext] on a directory entry. An entry holds no path
    separator, so the library's [sepIndex] is -1; the extension starts at the
    last dot unless only dots come before it. *)
Definition splitext (p : string) : string * string :=
  let sepIndex := (-1)%Z in
  let dotIndex := rfind "."%char p in
  if (sepIndex <? dotIndex)%Z &&
     some_other "."%char (substring 0 (Z.to_nat dotIndex) p) then
    (substring 0 (Z.to_nat dotIndex) p,
     substring (Z.to_nat dotIndex) (String.length p - Z.to_nat dotIndex) p)
  else (p, EmptyString).

(** [s.replace(old, new)] for single characters. *)
Fixpoint replace (old new : ascii) (s : string) : string :=
  match s with
  | EmptyString => EmptyString
  | String a rest =>
      String (if Ascii.eqb a old then new else a) (replace old new rest)
  end.

(** Line 50: [os.path.splitext(filename)[0].replace("_", " ")]. *)
Definition name_of_file (filename : string) : string :=
  replace "_"%char " "%char (fst (splitext filename)).

(** What line 52-54 find behind a path: an image with the encodings of the
    faces detected in it, no file ([FileNotFoundError]), or a failure of
    another kind, which the [except] clause of line 58 does not catch. *)
Inductive ImageFile (E : Type) : Type :=
| Image (faces : list E)
| NotFound
| Unreadable.

Arguments Image {E} faces.
Arguments NotFound {E}.
Arguments Unreadable {E}.

(** The two lists filled by [load_trusted_faces] (lines 21-22). *)
Record TrustRegistry (E : Type) : Type := mkRegistry {
  known_face_encodings : list E;
  known_face_names : list string
}.

Arguments mkRegistry {E} _ _.
Arguments known_face_encodings {E} _.
Arguments known_face_names {E} _.

Inductive LoadError : Type :=
| SystemExit
| UncaughtError.

Inductive loading (A : Type) : Type :=
| Loaded (a : A)
| LoadFails (e : LoadError).

Arguments Loaded {A} a.
Arguments LoadFails {A} e.

(** The [for filename in os.listdir(directory)] loop (lines 47-59); each
    entry comes with what is behind its path.
    The two [append]s of lines 55-56 are written with [++]. *)
Fixpoint load_files {E : Type} (lower : string -> string)
  (listing : list (string * ImageFile E)) (registry : TrustRegistry E)
  : loading (TrustRegistry E) :=
  match listing with
  | [] => Loaded registry
  | (filename, file) :: rest =>
      if has_image_extension lower filename then
        let name := name_of_file filename in
        match file with
        | Image (encoding :: _) =>
            load_files lower rest
              {| known_face_encodings := known_face_encodings registry ++ [encoding];
                 known_face_names := known_face_names registry ++ [name] |}
        | Image [] => load_files lower rest registry
        | NotFound => load_files lower rest registry
        | Unreadable => LoadFails UncaughtError
        end
      else load_files lower rest registry
  end.

(** Lines 40-60; [directory] is [None] when the path does not exist (the
    method then calls [exit()]), and otherwise the listing that [os.listdir]
    returns, each entry with what is behind its path. *)
Definition load_trusted_faces {E : Type} (lower : string -> string)
  (directory : option (list (string * ImageFile E))) (registry : TrustRegistry E)
  : loading (TrustRegistry E) :=
  match directory with
  | None => LoadFails SystemExit
  | Some listing => load_files lower listing registry
  end.

(** Lines 20-29 of [__init__]: the registry is loaded into empty lists and
    the state variables are initialised. *)
Definition SentinelAgent_init {E : Type} (lower : string -> string)
  (directory : option (list (string * ImageFile E)))
  : loading (TrustRegistry E * SentinelAgent) :=
  match load_trusted_faces lower directory (mkRegistry [] []) with
  | Loaded registry => Loaded (registry, init_agent)
  | LoadFails e => LoadFails e
  end.

(** [matches.index(True)]; [None] stands for the [ValueError]. *)
Fixpoint index_True (matches : list bool) : option nat :=
  match matches with
  | [] => None
  | b :: rest =>
      if b then Some O
      else match index_True rest with
           | Some i => Some (S i)
           | None => None
           end
  end.

(** Lines 127-131 for one face: not recognised, recognised under a name, or
    an [IndexError] from the lookup in [known_face_names]. *)
Inductive FaceName : Type :=
| NotRecognized
| RecognizedAs (name : string)
| LookupIndexError.

Definition recognize (names : list string) (matches : list bool) : FaceName :=
  if True_in matches then
    match index_True matches with
    | Some first_match_index =>
        match nth_error names first_match_index with
        | Some name => RecognizedAs name
        | None => LookupIndexError
        end
    | None => LookupIndexError
    end
  else NotRecognized.

(** What the recogniser delivers to [listen_for_command] (lines 161-177):
    a transcript, or one of the three exceptions the method catches. *)
Inductive Heard : Type :=
| Transcript (text : string)
| WaitTimeoutError
| UnknownValueError
| RequestError.

Definition listen_for_command (lower : string -> string) (h : Heard) : string :=
  match h with
  | Transcript text => lower text
  | WaitTimeoutError => EmptyString
  | UnknownValueError => EmptyString
  | RequestError => EmptyString
  end.

(** One iteration of [run] seen from outside: what is heard, and what the
    camera does if a guard cycle starts. *)
Definition session_of (lower : string -> string)
  (input : Heard * bool * list CameraRead) : Session :=
  {| command := listen_for_command lower (fst (fst input));
     isOpened := snd (fst input);
     reads := snd input |}.

(** [run] (lines 179-190). *)
Definition run (lower : string -> string)
  (inputs : list (Heard * bool * list CameraRead)) (self : SentinelAgent)
  : outcome (SentinelAgent * list Effect * bool) :=
  let greeting :=
    Speak "Hello [Your Name]. Sentinel agent is ready. Say 'guard my room' to activate or 'exit' to shut down." in
  let* (self, effects, stopped) := command_loop (map (session_of lower) inputs) self in
  Returns (self, greeting :: effects, stopped).

(** ** Further vocabulary *)

(** [str.lower] on ASCII letters, for running the model on ASCII inputs. *)
Definition ascii_lower_char (a : ascii) : ascii :=
  let n := nat_of_ascii a in
  if (65 <=? n)%nat && (n <=? 90)%nat then ascii_of_nat (n + 32) else a.

Fixpoint ascii_lower (s : string) : string :=
  match s with
  | EmptyString => EmptyString
  | String a rest => String (ascii_lower_char a) (ascii_lower rest)
  end.

(** The entries of a listing that end up in the registry. *)
Definition accepted {E : Type} (lower : string -> string)
  (entry : string * ImageFile E) : option (string * E) :=
  if has_image_extension lower (fst entry) then
    match snd entry with
    | Image (encoding :: _) => Some (name_of_file (fst entry), encoding)
    | _ => None
    end
  else None.

(** The entries on which the loop stops with an uncaught exception. *)
Definition fatal {E : Type} (lower : string -> string)
  (entry : string * ImageFile E) : bool :=
  has_image_extension lower (fst entry) &&
  match snd entry with
  | Unreadable => true
  | _ => false
  end.

Fixpoint keep_accepted {E : Type} (lower : string -> string)
  (listing : list (string * ImageFile E)) : list (string * E) :=
  match listing with
  | [] => []
  | entry :: rest =>
      match accepted lower entry with
      | Some kept => kept :: keep_accepted lower rest
      | None => keep_accepted lower rest
      end
  end.

Definition is_speak (e : Effect) : bool :=
  match e with
  | Speak _ => true
  | Imwrite _ => false
  end.

Definition count_speaks (effects : list Effect) : nat :=
  List.length (filter is_speak effects).

(** The read ends the monitoring loop: it failed, or [q] is pressed after
    its frame. *)
Definition stops (r : CameraRead) : bool :=
  negb (ret r) || (Z.land (waitKey r) 255 =? ord_q)%Z.

(** The command contains one of the phrases [run] reacts to. *)
Definition is_relevant (c : Session) : bool :=
  contains "guard my room" (command c) ||
  contains "exit" (command c) ||
  contains "stop" (command c).

(** The frames the command loop gets to process, over all its guard cycles:
    a cycle contributes [processed] of its reads; the loop goes on after a
    cycle only if the cycle was left, and ends at a stop command. *)
Fixpoint frames_of (sessions : list Session) : list Frame :=
  match sessions with
  | [] => []
  | c :: rest =>
      if contains "guard my room" (command c) then
        if isOpened c then
          processed (reads c) ++
          (if existsb stops (reads c) then frames_of rest else [])
        else frames_of rest
      else if contains "exit" (command c) || contains "stop" (command c) then []
      else frames_of rest
  end.

(** The ladder is on schedule with respect to the time of the greeting:
    the last warning was the greeting itself (level 1), or came more than
    10, 20, 25 seconds after it (levels 2, 3, 4). *)
Definition on_schedule (greeting : Q) (self : SentinelAgent) : Prop :=
  exists last,
    last_warning_time self = Some last /\
    (1 <= escalation_level self <= 4)%Z /\
    (escalation_level self = 1%Z -> last = greeting) /\
    (escalation_level self = 2%Z -> 10 < last - greeting) /\
    (escalation_level self = 3%Z -> 20 < last - greeting) /\
    (escalation_level self = 4%Z -> 25 < last - greeting).

(** * Properties *)

(** ** Reading the comparisons and the face scan *)

Lemma Qgtb_true (a b : Q) : Qgtb a b = true <-> b < a.
Proof.
  unfold Qgtb. rewrite negb_true_iff. split; intro H.
  - apply Qnot_le_lt. intro Hle. apply Qle_bool_iff in Hle. congruence.
  - destruct (Qle_bool a b) eqn:E; [|reflexivity].
    apply Qle_bool_iff in E. exfalso. apply (Qlt_not_le _ _ H E).
Qed.

Lemma Qgtb_false (a b : Q) : Qgtb a b = false <-> a <= b.
Proof.
  unfold Qgtb. rewrite negb_false_iff. apply Qle_bool_iff.
Qed.

(** ** Rounding does not cross a small whole number *)

Lemma round_half_even_bounds (n d M : Z) :
  (0 < d)%Z -> (0 <= n)%Z -> (n <= M * d)%Z ->
  (0 <= round_half_even n d <= M)%Z.
Proof.
  intros Hd Hn HM. unfold round_half_even.
  pose proof (Z.div_mod n d ltac:(lia)) as Hdm.
  pose proof (Z.mod_pos_bound n d Hd) as Hr.
  assert (Hq0 : (0 <= n / d)%Z) by (apply Z.div_pos; lia).
  assert (HqM : (n / d <= M)%Z) by (apply Z.div_le_upper_bound; lia).
  destruct (Z.compare_spec (2 * (n mod d)) d) as [He|Hl|Hg].
  - destruct (Z.even (n / d)); [lia|]. nia.
  - lia.
  - nia.
Qed.

Lemma binary_exponent_small (n : Z) (d : positive) :
  (0 < n)%Z -> (n <= 16 * Zpos d)%Z -> (binary_exponent n d <= 4)%Z.
Proof.
  intros Hn Hle. unfold binary_exponent.
  assert (H : (Z.log2 n <= 4 + Z.log2 (Zpos d))%Z).
  { rewrite <- (Z.log2_mul_pow2 (Zpos d) 4) by lia.
    apply Z.log2_le_mono. change (2 ^ 4)%Z with 16%Z. lia. }
  destruct (Zpos d * 2 ^ Z.max 0 (Z.log2 n - Z.log2 (Zpos d))
            <=? n * 2 ^ Z.max 0 (- (Z.log2 n - Z.log2 (Zpos d))))%Z; lia.
Qed.

(** A real number that is at most a whole number [T] between 0 and 16
    rounds to a double that is at most [T]. *)
Lemma double_round_below (x : Q) (T : Z) :
  (0 <= T <= 16)%Z -> x <= inject_Z T -> double_round x <= inject_Z T.
Proof.
  intros HT Hx. destruct x as [n d]. unfold double_round. cbn [Qnum Qden].
  unfold Qle in Hx. cbn [Qnum Qden inject_Z] in Hx.
  destruct (Z.eqb_spec (Z.abs n) 0) as [H0|H0].
  { unfold Qle. simpl. lia. }
  set (k := Z.max (binary_exponent (Z.abs n) d - 52) (-1074)).
  set (m := round_half_even (Z.abs n * 2 ^ Z.max 0 (- k))
              (Zpos d * 2 ^ Z.max 0 k)).
  assert (Hpow : forall e, (0 < 2 ^ Z.max 0 e)%Z)
    by (intro e; apply Z.pow_pos_nonneg; lia).
  destruct (Z.ltb_spec n 0) as [Hneg|Hpos].
  - assert (Hm : (0 <= m)%Z).
    { apply (round_half_even_bounds _ _ (Z.abs n * 2 ^ Z.max 0 (- k))).
      - pose proof (Hpow k). lia.
      - pose proof (Hpow (- k)%Z). nia.
      - pose proof (Hpow k) as H1. pose proof (Hpow (- k)%Z) as H2.
        assert (HA : (0 <= Z.abs n * 2 ^ Z.max 0 (- k))%Z) by nia.
        assert (HB : (1 <= Zpos d * 2 ^ Z.max 0 k)%Z) by nia.
        revert HA HB.
        generalize (Z.abs n * 2 ^ Z.max 0 (- k))%Z (Zpos d * 2 ^ Z.max 0 k)%Z.
        intros A B HA HB. nia. }
    unfold Qle, Qopp. cbn [Qnum Qden inject_Z].
    pose proof (Hpow k). nia.
  - assert (Hn : (0 < n)%Z) by lia.
    unfold m, k. clear m k. rewrite (Z.abs_eq n) by lia.
    set (k := Z.max (binary_exponent n d - 52) (-1074)).
    assert (Hk : (k < 0)%Z).
    { assert (Hd : (T * Zpos d <= 16 * Zpos d)%Z)
        by (apply Z.mul_le_mono_nonneg_r; lia).
      pose proof (binary_exponent_small n d Hn ltac:(lia)). unfold k. lia. }
    assert (Hk0 : Z.max 0 k = 0%Z) by lia.
    assert (Hk1 : Z.max 0 (- k) = (- k)%Z) by lia.
    rewrite Hk0, Hk1. rewrite Z.pow_0_r, !Z.mul_1_r.
    assert (HP : (0 < 2 ^ (- k))%Z) by (apply Z.pow_pos_nonneg; lia).
    unfold Qle. cbn [Qnum Qden inject_Z]. rewrite Z.mul_1_r.
    rewrite Z2Pos.id by exact HP.
    apply (round_half_even_bounds (n * 2 ^ (- k)) (Zpos d) (T * 2 ^ (- k))); nia.
Qed.

(** A double difference above such a [T] comes from an exact difference
    above [T]; an exact difference of at most [T] fails the test. *)
Lemma elapsed_exceeds (a b : Q) (T : Z) :
  (0 <= T <= 16)%Z -> inject_Z T < double_sub a b -> inject_Z T < a - b.
Proof.
  intros HT H. apply Qnot_le_lt. intro Hle.
  apply (double_round_below _ T HT) in Hle. unfold double_sub in H.
  apply (Qlt_not_le _ _ H Hle).
Qed.

Lemma elapsed_within (a b : Q) (T : Z) :
  (0 <= T <= 16)%Z -> a - b <= inject_Z T ->
  Qgtb (double_sub a b) (inject_Z T) = false.
Proof.
  intros HT H. apply Qgtb_false. now apply double_round_below.
Qed.

Lemma grace_exceeded (a b : Q) :
  GRACE_PERIOD_SECONDS < double_sub a b -> GRACE_PERIOD_SECONDS < a - b.
Proof. apply (elapsed_exceeds a b 3). lia. Qed.

Lemma within_grace (a b : Q) :
  a - b <= GRACE_PERIOD_SECONDS ->
  Qgtb (double_sub a b) GRACE_PERIOD_SECONDS = false.
Proof. apply (elapsed_within a b 3). lia. Qed.

Lemma exceeds_10 (a b : Q) : 10 < double_sub a b -> 10 < a - b.
Proof. apply (elapsed_exceeds a b 10). lia. Qed.

Lemma exceeds_5 (a b : Q) : 5 < double_sub a b -> 5 < a - b.
Proof. apply (elapsed_exceeds a b 5). lia. Qed.

Lemma scan_faces_spec (encodings : list (list bool)) (self : SentinelAgent) :
  scan_faces encodings self =
  (trusted_present encodings,
   if trusted_present encodings then reset_intruder_state self else self).
Proof.
  induction encodings as [|matches rest IH]; simpl; [reflexivity|].
  destruct (True_in matches); simpl; [reflexivity|exact IH].
Qed.

Lemma reset_is_init (self : SentinelAgent) : reset_intruder_state self = init_agent.
Proof. reflexivity. Qed.

(** The three shapes of a tick. *)

Lemma guard_tick_trusted (f : Frame) (self : SentinelAgent) :
  trusted_present (face_encodings f) = true ->
  guard_tick f self = Returns (init_agent, [], TrustedPresent).
Proof.
  intro H. unfold guard_tick. rewrite scan_faces_spec, H. reflexivity.
Qed.

Lemma guard_tick_no_faces (f : Frame) (self : SentinelAgent) :
  face_encodings f = [] ->
  guard_tick f self =
  Returns (set_unrecognized_face_start_time None self, [], NoFaces).
Proof.
  intro H. unfold guard_tick. rewrite H. reflexivity.
Qed.

Lemma guard_tick_unknown (f : Frame) (self : SentinelAgent) :
  trusted_present (face_encodings f) = false ->
  truthy (face_encodings f) = true ->
  guard_tick f self =
  match unrecognized_face_start_time self with
  | None =>
      Returns (set_unrecognized_face_start_time (Some (clock_loop f)) self,
               [], UnknownPending)
  | Some since =>
      if Qgtb (double_sub (clock_loop f) since) GRACE_PERIOD_SECONDS then
        let* (self', effects) :=
          handle_intruder_escalation (clock_escalation f)
            (set_intruder_detected true self) in
        Returns (self', effects, IntruderConfirmed)
      else Returns (self, [], UnknownPending)
  end.
Proof.
  intros Hu Hn. unfold guard_tick. rewrite scan_faces_spec, Hu, Hn. reflexivity.
Qed.

Lemma truthy_false_nil {A : Type} (l : list A) : truthy l = false -> l = [].
Proof. destruct l; [reflexivity|discriminate]. Qed.

(** ** The ladder invariant *)

Lemma ladder_inv_init : ladder_inv init_agent.
Proof. split; simpl; [lia|congruence]. Qed.

Lemma ladder_inv_set_intruder (b : bool) (self : SentinelAgent) :
  ladder_inv self -> ladder_inv (set_intruder_detected b self).
Proof. intro H; exact H. Qed.

Lemma ladder_inv_set_start (t : option Q) (self : SentinelAgent) :
  ladder_inv self -> ladder_inv (set_unrecognized_face_start_time t self).
Proof. intro H; exact H. Qed.

Lemma escalation_returns (now : Q) (self : SentinelAgent) :
  ladder_inv self ->
  exists self' effects,
    handle_intruder_escalation now self = Returns (self', effects) /\
    escalation_step now self self' effects.
Proof.
  intros [Hrange Hset]. unfold handle_intruder_escalation.
  destruct (Z.eqb_spec (escalation_level self) 0) as [H0|H0].
  - eexists _, _. split; [reflexivity|]. now apply step_hello.
  - destruct (Hset H0) as [last Hlast]. rewrite Hlast.
    destruct (Z.eqb_spec (escalation_level self) 1) as [H1|H1];
      [destruct (Qgtb (double_sub now last) 10) eqn:E1|]; simpl.
    + eexists _, _. split; [reflexivity|].
      apply Qgtb_true in E1. now apply step_not_trusted with last.
    + apply Qgtb_false in E1.
      destruct (Z.eqb_spec (escalation_level self) 2); [lia|].
      destruct (Z.eqb_spec (escalation_level self) 3); [lia|]. simpl.
      eexists _, _. split; [reflexivity|].
      apply step_wait with last; trivial; intros; try lia; trivial.
    + destruct (Z.eqb_spec (escalation_level self) 2) as [H2|H2];
        [destruct (Qgtb (double_sub now last) 10) eqn:E2|]; simpl.
      * eexists _, _. split; [reflexivity|].
        apply Qgtb_true in E2. now apply step_not_authorized with last.
      * apply Qgtb_false in E2.
        destruct (Z.eqb_spec (escalation_level self) 3); [lia|]. simpl.
        eexists _, _. split; [reflexivity|].
        apply step_wait with last; trivial; intros; try lia; trivial.
      * destruct (Z.eqb_spec (escalation_level self) 3) as [H3|H3];
          [destruct (Qgtb (double_sub now last) 5) eqn:E3|]; simpl.
        -- eexists _, _. split; [reflexivity|].
           apply Qgtb_true in E3. now apply step_warning with last.
        -- apply Qgtb_false in E3.
           eexists _, _. split; [reflexivity|].
           apply step_wait with last; trivial; intros; try lia; trivial.
        -- eexists _, _. split; [reflexivity|].
           apply step_wait with last; trivial; intros; lia.
Qed.

Lemma escalation_step_inv (now : Q) (self self' : SentinelAgent) (effects : list Effect) :
  ladder_inv self -> escalation_step now self self' effects -> ladder_inv self'.
Proof.
  intros Hinv Hstep.
  destruct Hstep; trivial; split; simpl; try lia; intros _; now exists now.
Qed.

Lemma trusted_present_iff (encodings : list (list bool)) :
  trusted_present encodings = true <->
  exists matches, In matches encodings /\ In true matches.
Proof.
  unfold trusted_present, True_in. rewrite existsb_exists. split.
  - intros [m [Hin Hm]]. apply existsb_exists in Hm as [b [Hb Hb']].
    exists m. split; [exact Hin|]. now subst b.
  - intros [m [Hin Hm]]. exists m. split; [exact Hin|].
    apply existsb_exists. now exists true.
Qed.

Lemma guard_tick_returns (f : Frame) (self : SentinelAgent) :
  ladder_inv self ->
  exists self' effects decision,
    guard_tick f self = Returns (self', effects, decision) /\ ladder_inv self'.
Proof.
  intro Hinv.
  destruct (trusted_present (face_encodings f)) eqn:Ht.
  - rewrite (guard_tick_trusted _ _ Ht). eexists _, _, _.
    split; [reflexivity|apply ladder_inv_init].
  - destruct (truthy (face_encodings f)) eqn:Hn.
    + rewrite (guard_tick_unknown _ _ Ht Hn).
      destruct (unrecognized_face_start_time self) as [since|].
      * destruct (Qgtb (double_sub (clock_loop f) since) GRACE_PERIOD_SECONDS).
        -- destruct (escalation_returns (clock_escalation f)
                       (set_intruder_detected true self)) as (s' & ev & Hr & Hs).
           { now apply ladder_inv_set_intruder. }
           rewrite Hr. simpl. eexists _, _, _. split; [reflexivity|].
           eapply escalation_step_inv; [|exact Hs].
           now apply ladder_inv_set_intruder.
        -- eexists _, _, _. split; [reflexivity|exact Hinv].
      * eexists _, _, _. split; [reflexivity|]. now apply ladder_inv_set_start.
    + rewrite (guard_tick_no_faces _ _ (truthy_false_nil _ Hn)).
      eexists _, _, _. split; [reflexivity|]. now apply ladder_inv_set_start.
Qed.

Lemma run_ticks_returns (frames : list Frame) :
  forall self, ladder_inv self ->
  exists self' effects,
    run_ticks frames self = Returns (self', effects) /\ ladder_inv self'.
Proof.
  induction frames as [|f rest IH]; intros self Hinv; simpl.
  - eexists _, _. split; [reflexivity|exact Hinv].
  - destruct (guard_tick_returns f self Hinv) as (s1 & e1 & d & Hr & Hi).
    rewrite Hr. simpl.
    destruct (IH s1 Hi) as (s2 & e2 & Hr2 & Hi2). rewrite Hr2. simpl.
    eexists _, _. split; [reflexivity|exact Hi2].
Qed.

(** ** C1: a trusted face resets everything *)

(** C1. Whenever some face of the frame matches a trusted encoding, the tick
    takes the trusted branch and, whatever the agent's state was, leaves
    [unrecognized_face_start_time] cleared, [intruder_detected] false,
    [escalation_level] 0 and [last_warning_time] cleared; it emits nothing. *)
Theorem trusted_face_resets (f : Frame) (self : SentinelAgent) :
  (exists matches, In matches (face_encodings f) /\ In true matches) ->
  exists self',
    guard_tick f self = Returns (self', [], TrustedPresent) /\
    unrecognized_face_start_time self' = None /\
    intruder_detected self' = false /\
    escalation_level self' = 0%Z /\
    last_warning_time self' = None.
Proof.
  intro H. apply trusted_present_iff in H.
  exists init_agent. rewrite (guard_tick_trusted _ _ H). repeat split.
Qed.

Lemma trusted_face_resets_witness :
  exists self',
    guard_tick (mkFrame [[false]; [false; true]] 20 20)
      (mkAgent true (Some 12) 3 (Some 1)) = Returns (self', [], TrustedPresent) /\
    unrecognized_face_start_time self' = None /\
    intruder_detected self' = false /\
    escalation_level self' = 0%Z /\
    last_warning_time self' = None.
Proof.
  apply (trusted_face_resets (mkFrame [[false]; [false; true]] 20 20)
           (mkAgent true (Some 12) 3 (Some 1))).
  exists [false; true]. split; simpl; auto.
Defined.

(** ** C2: the grace period *)

(** C2, as stated, fails at the boundary: with the timer started at 0 and the
    clock reading exactly 3, an unmatched face leaves the agent unchanged and
    the tick on the pending branch. *)
Lemma grace_boundary_not_confirmed :
  let self := mkAgent false None 0 (Some 0) in
  let f := mkFrame [[false]] 3 3 in
  face_encodings f <> [] /\
  trusted_present (face_encodings f) = false /\
  GRACE_PERIOD_SECONDS <= clock_loop f - 0 /\
  guard_tick f self = Returns (self, [], UnknownPending) /\
  intruder_detected self = false.
Proof.
  repeat split; try discriminate.
Qed.

(** On the doubles 0.1 and 3.1 the exact difference is above 3 but the
    double difference is exactly 3: the tick stays pending. *)
Lemma grace_rounding_example :
  let since := 3602879701896397 # 36028797018963968 in
  let now := 6980579422424269 # 2251799813685248 in
  let self := mkAgent false None 0 (Some since) in
  GRACE_PERIOD_SECONDS < now - since /\
  double_sub now since == 3 /\
  guard_tick (mkFrame [[false]] now now) self =
    Returns (self, [], UnknownPending).
Proof.
  repeat split.
Qed.

(** C2, amended. On a tick with faces none of which is trusted and the timer
    already running, the intrusion is confirmed ([intruder_detected] set, the
    confirmed branch taken) when the elapsed time, computed as the double
    difference of the two timestamps, strictly exceeds
    [GRACE_PERIOD_SECONDS]; when the elapsed time is at most that (in
    particular exactly equal), exactly or as computed, the tick is pending
    and the agent is unchanged. *)
Theorem grace_period_strict (f : Frame) (self : SentinelAgent) (since : Q) :
  ladder_inv self ->
  face_encodings f <> [] ->
  (forall matches, In matches (face_encodings f) -> ~ In true matches) ->
  unrecognized_face_start_time self = Some since ->
  (GRACE_PERIOD_SECONDS < double_sub (clock_loop f) since ->
   exists self' effects,
     guard_tick f self = Returns (self', effects, IntruderConfirmed) /\
     intruder_detected self' = true) /\
  (clock_loop f - since <= GRACE_PERIOD_SECONDS ->
   guard_tick f self = Returns (self, [], UnknownPending)) /\
  (double_sub (clock_loop f) since <= GRACE_PERIOD_SECONDS ->
   guard_tick f self = Returns (self, [], UnknownPending)).
Proof.
  intros Hinv Hne Hnone Hsince.
  assert (Ht : trusted_present (face_encodings f) = false).
  { destruct (trusted_present (face_encodings f)) eqn:E; [|reflexivity].
    apply trusted_present_iff in E as [m [Hin Hm]]. destruct (Hnone m Hin Hm). }
  assert (Hn : truthy (face_encodings f) = true).
  { destruct (face_encodings f); [congruence|reflexivity]. }
  rewrite (guard_tick_unknown _ _ Ht Hn), Hsince.
  split; [|split]; intro Hcmp.
  - apply Qgtb_true in Hcmp. rewrite Hcmp.
    destruct (escalation_returns (clock_escalation f)
                (set_intruder_detected true self)) as (s' & ev & Hr & Hs).
    { now apply ladder_inv_set_intruder. }
    rewrite Hr. simpl. exists s', ev. split; [reflexivity|].
    destruct Hs; reflexivity.
  - apply within_grace in Hcmp. rewrite Hcmp. reflexivity.
  - apply Qgtb_false in Hcmp. rewrite Hcmp. reflexivity.
Qed.

Lemma grace_period_strict_witness :
  exists self' effects,
    guard_tick (mkFrame [[false]] 4 4) (mkAgent false None 0 (Some 0)) =
      Returns (self', effects, IntruderConfirmed) /\
    intruder_detected self' = true.
Proof.
  apply (proj1 (grace_period_strict (mkFrame [[false]] 4 4)
                  (mkAgent false None 0 (Some 0)) 0
                  ladder_inv_init
                  ltac:(discriminate)
                  ltac:(intros m [<-|[]] [H|[]]; discriminate)
                  eq_refl)).
  reflexivity.
Defined.

(** ** C4: a frame without faces *)

Lemma escalation_never_lowers (now : Q) (self self' : SentinelAgent)
  (effects : list Effect) :
  handle_intruder_escalation now self = Returns (self', effects) ->
  intruder_detected self' = intruder_detected self /\
  (escalation_level self <= escalation_level self')%Z.
Proof.
  escalation_branches;
    intro H; try discriminate; inversion H; subst; simpl;
    (split; [reflexivity|]); read_level_tests; lia.
Qed.

Lemma only_trusted_lowers (f : Frame) (self self' : SentinelAgent)
  (effects : list Effect) (decision : PresenceDecision) :
  guard_tick f self = Returns (self', effects, decision) ->
  intruder_detected self = true /\ intruder_detected self' = false \/
  (escalation_level self' < escalation_level self)%Z ->
  decision = TrustedPresent /\ trusted_present (face_encodings f) = true.
Proof.
  intros Hrun Hend.
  destruct (trusted_present (face_encodings f)) eqn:Ht.
  - rewrite (guard_tick_trusted _ _ Ht) in Hrun. inversion Hrun; subst.
    now split.
  - exfalso. destruct (truthy (face_encodings f)) eqn:Hn.
    + rewrite (guard_tick_unknown _ _ Ht Hn) in Hrun.
      destruct (unrecognized_face_start_time self) as [since|].
      * destruct (Qgtb (double_sub (clock_loop f) since) GRACE_PERIOD_SECONDS).
        -- destruct (handle_intruder_escalation (clock_escalation f)
                       (set_intruder_detected true self))
             as [[s1 e1]|] eqn:Hesc; [|discriminate].
           simpl in Hrun. inversion Hrun; subst.
           apply escalation_never_lowers in Hesc as [Hi Hl]. simpl in Hi, Hl.
           destruct Hend as [[_ Hoff]|Hlow]; [congruence|lia].
        -- inversion Hrun; subst.
           destruct Hend as [[Hon Hoff]|Hlow]; [congruence|lia].
      * inversion Hrun; subst. simpl in Hend.
        destruct Hend as [[Hon Hoff]|Hlow]; [congruence|lia].
    + rewrite (guard_tick_no_faces _ _ (truthy_false_nil _ Hn)) in Hrun.
      inversion Hrun; subst. simpl in Hend.
      destruct Hend as [[Hon Hoff]|Hlow]; [congruence|lia].
Qed.

(** C4. On a frame without faces the tick clears
    [unrecognized_face_start_time] and changes neither [intruder_detected] nor
    the ladder ([escalation_level], [last_warning_time]); and a tick that turns
    [intruder_detected] off, or lowers the level, saw a trusted face. *)
Theorem no_faces_keeps_episode :
  (forall (f : Frame) (self : SentinelAgent),
      face_encodings f = [] ->
      exists self',
        guard_tick f self = Returns (self', [], NoFaces) /\
        unrecognized_face_start_time self' = None /\
        intruder_detected self' = intruder_detected self /\
        escalation_level self' = escalation_level self /\
        last_warning_time self' = last_warning_time self) /\
  (forall (f : Frame) (self self' : SentinelAgent) (effects : list Effect)
          (decision : PresenceDecision),
      guard_tick f self = Returns (self', effects, decision) ->
      intruder_detected self = true ->
      intruder_detected self' = false \/
      (escalation_level self' < escalation_level self)%Z ->
      decision = TrustedPresent /\
      exists matches, In matches (face_encodings f) /\ In true matches).
Proof.
  split.
  - intros f self Hnil. rewrite (guard_tick_no_faces _ _ Hnil).
    eexists. split; [reflexivity|]. repeat split.
  - intros f self self' effects decision Hrun Hint Hend.
    destruct (only_trusted_lowers _ _ _ _ _ Hrun) as [Hd Ht].
    { destruct Hend as [Hoff|Hlow]; [left; now split|now right]. }
    split; [exact Hd|]. now apply trusted_present_iff.
Qed.

Lemma no_faces_keeps_episode_witness :
  (exists self',
      guard_tick (mkFrame [] 30 30) (mkAgent true (Some 15) 2 (Some 1)) =
        Returns (self', [], NoFaces) /\
      unrecognized_face_start_time self' = None /\
      intruder_detected self' = true /\
      escalation_level self' = 2%Z /\
      last_warning_time self' = Some 15) /\
  (exists matches, In matches [[false]; [true]] /\ In true matches).
Proof.
  split.
  - apply (proj1 no_faces_keeps_episode (mkFrame [] 30 30)
             (mkAgent true (Some 15) 2 (Some 1)) eq_refl).
  - apply (proj2 no_faces_keeps_episode (mkFrame [[false]; [true]] 30 30)
             (mkAgent true (Some 15) 2 (Some 1)) init_agent [] TrustedPresent
             eq_refl eq_refl (or_introl eq_refl)).
Defined.

(** ** C6: what one escalation tick does *)

(** On the doubles 0.3 and 10.3 the exact difference is above 10 but the
    double difference is exactly 10: the tick at level 1 is silent. The same
    happens at level 3 on the doubles 0.7 and 5.7. *)
Lemma cooldown_rounding_example :
  let last := 5404319552844595 # 18014398509481984 in
  let now := 2899192260119757 # 281474976710656 in
  let self := mkAgent true (Some last) 1 (Some 0) in
  let last3 := 3152519739159347 # 4503599627370496 in
  let now3 := 6417629469002957 # 1125899906842624 in
  let self3 := mkAgent true (Some last3) 3 (Some 0) in
  10 < now - last /\
  double_sub now last == 10 /\
  handle_intruder_escalation now self = Returns (self, []) /\
  5 < now3 - last3 /\
  double_sub now3 last3 == 5 /\
  handle_intruder_escalation now3 self3 = Returns (self3, []).
Proof.
  repeat split.
Qed.

(** C6. An escalation tick on a state of the ladder returns, and emits either
    nothing, one [Speak], or one [Speak] with the snapshot. At level 0 it fires
    the greeting unconditionally; at levels 1 and 2 it fires only when more
    than 10 seconds passed since the last warning, at level 3 only when more
    than 5 did, and otherwise emits nothing; at level 4 it never fires. The
    test that decides is the double difference of the two timestamps being
    above the threshold. A firing tick records the current time as
    [last_warning_time]; a silent one changes nothing. *)
Theorem escalation_tick_fires (now : Q) (self : SentinelAgent) :
  ladder_inv self ->
  exists self' effects,
    handle_intruder_escalation now self = Returns (self', effects) /\
    (effects = [] \/
     (exists text, effects = [Speak text]) \/
     (exists text path, effects = [Speak text; Imwrite path])) /\
    (escalation_level self = 0%Z ->
     effects = [Speak MSG_HELLO] /\ escalation_level self' = 1%Z) /\
    (forall last, last_warning_time self = Some last ->
       escalation_level self = 1%Z \/ escalation_level self = 2%Z ->
       (effects <> [] ->
        10 < now - last /\
        escalation_level self' = (escalation_level self + 1)%Z) /\
       (now - last <= 10 -> effects = []) /\
       (effects <> [] <-> 10 < double_sub now last)) /\
    (forall last, last_warning_time self = Some last ->
       escalation_level self = 3%Z ->
       (effects <> [] -> 5 < now - last /\ escalation_level self' = 4%Z) /\
       (now - last <= 5 -> effects = []) /\
       (effects <> [] <-> 5 < double_sub now last)) /\
    (escalation_level self = 4%Z -> effects = []) /\
    (effects <> [] -> last_warning_time self' = Some now) /\
    (effects = [] -> self' = self).
Proof.
  intro Hinv.
  destruct (escalation_returns now self Hinv) as (s' & ev & Hr & Hs).
  exists s', ev. split; [exact Hr|].
  destruct Hs as [H0|last0 H1 Hl Hc|last0 H2 Hl Hc|last0 H3 Hl Hc|last0 Hl H12 H3' Hn0].
  - split; [right; left; eauto|]. split; [now split|].
    split; [intros; lia|]. split; [intros; lia|]. split; [intros; lia|].
    split; [reflexivity|discriminate].
  - pose proof (exceeds_10 _ _ Hc) as Hx.
    split; [right; left; eauto|]. split; [intros; lia|].
    split.
    { intros last Hlast _. same_last. rewrite H1. simpl.
      split; [intros _; split; [assumption|reflexivity]|].
      split; [intro; lra|]. split; [intros _; assumption|discriminate]. }
    split; [intros; lia|]. split; [intros; lia|].
    split; [reflexivity|discriminate].
  - pose proof (exceeds_10 _ _ Hc) as Hx.
    split; [right; right; eauto|]. split; [intros; lia|].
    split.
    { intros last Hlast _. same_last. rewrite H2. simpl.
      split; [intros _; split; [assumption|reflexivity]|].
      split; [intro; lra|]. split; [intros _; assumption|discriminate]. }
    split; [intros; lia|]. split; [intros; lia|].
    split; [reflexivity|discriminate].
  - pose proof (exceeds_5 _ _ Hc) as Hx.
    split; [right; left; eauto|]. split; [intros; lia|].
    split; [intros; lia|].
    split.
    { intros last Hlast _. same_last. simpl.
      split; [intros _; split; [assumption|reflexivity]|].
      split; [intro; lra|]. split; [intros _; assumption|discriminate]. }
    split; [intros; lia|]. split; [reflexivity|discriminate].
  - split; [now left|]. split; [intros; congruence|].
    split.
    { intros last Hlast H12'. same_last.
      split; [congruence|]. split; [reflexivity|].
      split; [congruence|]. intro Hgt. specialize (H12 H12').
      exfalso. apply (Qlt_not_le _ _ Hgt H12). }
    split.
    { intros last Hlast H3''. same_last.
      split; [congruence|]. split; [reflexivity|].
      split; [congruence|]. intro Hgt. specialize (H3' H3'').
      exfalso. apply (Qlt_not_le _ _ Hgt H3'). }
    split; [reflexivity|]. split; [congruence|reflexivity].
Qed.

Lemma escalation_tick_fires_witness :
  exists self' effects,
    handle_intruder_escalation 22 (mkAgent true (Some 11) 2 (Some 0)) =
      Returns (self', effects) /\
    (effects <> [] -> last_warning_time self' = Some 22) /\
    (effects <> [] <-> 10 < double_sub 22 11).
Proof.
  destruct (escalation_tick_fires 22 (mkAgent true (Some 11) 2 (Some 0)))
    as (s' & ev & Hr & _ & _ & H12 & _ & _ & Hfire & _).
  { split; simpl; [lia|]. intros _. now exists 11. }
  exists s', ev. split; [exact Hr|]. split; [exact Hfire|].
  destruct (H12 11 eq_refl (or_intror eq_refl)) as (_ & _ & Hiff).
  exact Hiff.
Defined.

(** ** C9: the warning time is there when the ladder needs it *)

(** C9. Every run of ticks from the initial agent returns (no [TypeError]),
    and in the state it reaches a positive [escalation_level] comes with a
    recorded [last_warning_time]; so an escalation tick entered from that
    state returns as well. *)
Theorem warning_time_always_set (frames : list Frame) :
  exists self effects,
    run_ticks frames init_agent = Returns (self, effects) /\
    ((0 < escalation_level self)%Z -> exists t, last_warning_time self = Some t) /\
    (forall now, exists result,
        handle_intruder_escalation now (set_intruder_detected true self) =
          Returns result).
Proof.
  destruct (run_ticks_returns frames init_agent ladder_inv_init)
    as (s & ev & Hr & Hinv).
  exists s, ev. split; [exact Hr|]. split.
  - intro Hpos. apply (proj2 Hinv). lia.
  - intro now.
    destruct (escalation_returns now (set_intruder_detected true s))
      as (s' & ev' & Hr' & _).
    { now apply ladder_inv_set_intruder. }
    now exists (s', ev').
Qed.

Lemma warning_time_always_set_witness :
  exists self effects,
    run_ticks [mkFrame [[false]] 0 0; mkFrame [[false]] 4 4; mkFrame [] 5 5;
               mkFrame [[false]] 6 6; mkFrame [[false]] 20 20] init_agent =
      Returns (self, effects) /\
    ((0 < escalation_level self)%Z -> exists t, last_warning_time self = Some t) /\
    (forall now, exists result,
        handle_intruder_escalation now (set_intruder_detected true self) =
          Returns result).
Proof.
  apply (warning_time_always_set
           [mkFrame [[false]] 0 0; mkFrame [[false]] 4 4; mkFrame [] 5 5;
            mkFrame [[false]] 6 6; mkFrame [[false]] 20 20]).
Defined.

(** ** C5: the ladder is climbed one rung at a time *)

Lemma escalation_step_shape (now : Q) (self self' : SentinelAgent)
  (effects : list Effect) :
  ladder_inv self -> escalation_step now self self' effects ->
  (effects = [] /\ self' = self) \/
  (effects <> [] /\
   escalation_level self' = (escalation_level self + 1)%Z /\
   (0 <= escalation_level self < 4)%Z).
Proof.
  intros [Hrange _] Hs.
  destruct Hs; [right|right|right|right|left]; simpl;
    repeat split; try discriminate; lia.
Qed.

Lemma escalation_ticks_ladder (times : list Q) :
  forall self, ladder_inv self ->
  exists log,
    escalation_ticks times self = Returns log /\
    ladder_inv (final_agent self log) /\
    one_rung_at_a_time self log /\
    (escalation_level self <= escalation_level (final_agent self log))%Z /\
    fired log =
      levels_from (escalation_level self)
        (Z.to_nat (escalation_level (final_agent self log) - escalation_level self)).
Proof.
  induction times as [|now rest IH]; intros self Hinv; simpl.
  - exists []. simpl. split; [reflexivity|]. split; [exact Hinv|].
    repeat split; try lia. now rewrite Z.sub_diag.
  - destruct (escalation_returns now self Hinv) as (s1 & e1 & Hr & Hs).
    rewrite Hr. simpl.
    pose proof (escalation_step_inv _ _ _ _ Hinv Hs) as Hinv1.
    destruct (IH s1 Hinv1) as (log & Hlog & Hfin & Hrung & Hle & Hfired).
    rewrite Hlog. simpl. eexists. split; [reflexivity|]. simpl.
    split; [exact Hfin|].
    destruct (escalation_step_shape _ _ _ _ Hinv Hs)
      as [[He Hsame]|(He & Hup & Hlt)].
    + subst e1 s1. repeat split; auto.
    + repeat split; auto; try lia.
      unfold fired. simpl. destruct e1 as [|x e1]; [congruence|]. simpl.
      fold (fired log). rewrite Hfired, Hup.
      replace (Z.to_nat (escalation_level (final_agent s1 log) - escalation_level self))
        with (S (Z.to_nat (escalation_level (final_agent s1 log)
                           - (escalation_level self + 1)))) by lia.
      reflexivity.
Qed.

(** C5. A run of escalation ticks that starts an episode (level 0) returns;
    every tick of it either is silent and changes nothing or fires and raises
    the level by exactly one; the levels at which it fired are exactly
    0, 1, ..., up to one below the level reached, each once and in this
    order; the level reached is at most 4; and every tick entered at level 4
    emits nothing and leaves the agent as it is. *)
Theorem ladder_in_order (times : list Q) (self : SentinelAgent) :
  escalation_level self = 0%Z ->
  exists log,
    escalation_ticks times self = Returns log /\
    one_rung_at_a_time self log /\
    fired log = levels_from 0 (Z.to_nat (escalation_level (final_agent self log))) /\
    (escalation_level (final_agent self log) <= 4)%Z /\
    Forall (fun e => escalation_level (fst (fst e)) = 4%Z ->
                     snd (fst e) = [] /\ snd e = fst (fst e)) log.
Proof.
  intro H0.
  assert (Hinv : ladder_inv self).
  { split; [lia|congruence]. }
  destruct (escalation_ticks_ladder times self Hinv)
    as (log & Hlog & Hfin & Hrung & Hle & Hfired).
  exists log. rewrite H0, Z.sub_0_r in Hfired.
  split; [exact Hlog|]. split; [exact Hrung|]. split; [exact Hfired|].
  split; [apply Hfin|].
  clear - Hrung. revert self Hrung.
  induction log as [|[[b ev] a] rest IH]; intros self Hrung; constructor.
  - simpl. intro H4. destruct Hrung as (_ & [[He Ha]|(_ & _ & Hlt)] & _).
    + now split.
    + lia.
  - apply (IH a). apply Hrung.
Qed.

Lemma ladder_in_order_witness :
  exists log,
    escalation_ticks [4; 5; 15; 26; 63 # 2; 40] init_agent = Returns log /\
    one_rung_at_a_time init_agent log /\
    fired log =
      levels_from 0 (Z.to_nat (escalation_level (final_agent init_agent log))) /\
    (escalation_level (final_agent init_agent log) <= 4)%Z /\
    Forall (fun e => escalation_level (fst (fst e)) = 4%Z ->
                     snd (fst e) = [] /\ snd e = fst (fst e)) log.
Proof.
  apply (ladder_in_order [4; 5; 15; 26; 63 # 2; 40] init_agent). reflexivity.
Defined.

(** ** C7: the snapshot *)

Lemma count_snapshots_app (a b : list Effect) :
  count_snapshots (a ++ b) = (count_snapshots a + count_snapshots b)%nat.
Proof.
  unfold count_snapshots. now rewrite filter_app, List.length_app.
Qed.

(** [int] of a non-negative timestamp is its whole number of seconds. *)
Lemma python_int_floor (x : Q) :
  0 <= x ->
  inject_Z (python_int x) <= x /\ x < inject_Z (python_int x + 1).
Proof.
  destruct x as [n d]. unfold python_int, Qle, Qlt, inject_Z. simpl.
  intro Hn. rewrite Z.mul_1_r in Hn.
  rewrite Z.quot_div_nonneg by lia.
  rewrite !Z.mul_1_r. split.
  - rewrite Z.mul_comm. apply Z.mul_div_le. lia.
  - rewrite Z.mul_comm. apply Z.mul_succ_div_gt. lia.
Qed.

Lemma escalation_snapshot (now : Q) (self self' : SentinelAgent)
  (effects : list Effect) :
  handle_intruder_escalation now self = Returns (self', effects) ->
  (forall path, In (Imwrite path) effects ->
     escalation_level self = 2%Z /\ escalation_level self' = 3%Z /\
     path = snapshot_path now) /\
  (escalation_level self = 2%Z -> escalation_level self' = 3%Z ->
   effects = [Speak MSG_NOT_AUTHORIZED; Imwrite (snapshot_path now)]).
Proof.
  escalation_branches;
    intro H; try discriminate; inversion H; subst; simpl;
    read_level_tests;
    (split;
     [ intros path Hin;
       repeat (destruct Hin as [Hin|Hin]; try discriminate);
       try contradiction;
       inversion Hin; subst; auto
     | intros; try reflexivity; try lia ]).
Qed.

Lemma guard_tick_effects (f : Frame) (self self' : SentinelAgent)
  (effects : list Effect) (decision : PresenceDecision) :
  guard_tick f self = Returns (self', effects, decision) ->
  effects = [] /\
  (untrusted f -> escalation_level self' = escalation_level self) \/
  untrusted f /\
  handle_intruder_escalation (clock_escalation f)
    (set_intruder_detected true self) = Returns (self', effects).
Proof.
  intro Hrun. unfold untrusted.
  destruct (trusted_present (face_encodings f)) eqn:Ht.
  - rewrite (guard_tick_trusted _ _ Ht) in Hrun. inversion Hrun; subst.
    left. split; [reflexivity|discriminate].
  - destruct (truthy (face_encodings f)) eqn:Hn.
    + rewrite (guard_tick_unknown _ _ Ht Hn) in Hrun.
      destruct (unrecognized_face_start_time self) as [since|].
      * destruct (Qgtb (double_sub (clock_loop f) since) GRACE_PERIOD_SECONDS).
        -- destruct (handle_intruder_escalation (clock_escalation f)
                       (set_intruder_detected true self))
             as [[s1 e1]|] eqn:Hesc; [|discriminate].
           simpl in Hrun. inversion Hrun; subst. right. now split.
        -- inversion Hrun; subst. left. now split.
      * inversion Hrun; subst. left. now split.
    + rewrite (guard_tick_no_faces _ _ (truthy_false_nil _ Hn)) in Hrun.
      inversion Hrun; subst. left. now split.
Qed.

Lemma escalation_step_snapshots (now : Q) (self self' : SentinelAgent)
  (effects : list Effect) :
  escalation_step now self self' effects ->
  count_snapshots effects =
  if (escalation_level self =? 2)%Z && (escalation_level self' =? 3)%Z
  then 1%nat else 0%nat.
Proof.
  intro Hs.
  destruct Hs as [H|? H|? H|? H|]; try (simpl; rewrite H; reflexivity).
  destruct (Z.eqb_spec (escalation_level self) 2),
           (Z.eqb_spec (escalation_level self) 3); try reflexivity; lia.
Qed.

Lemma run_untrusted_snapshots (frames : list Frame) :
  forall self, ladder_inv self -> Forall untrusted frames ->
  exists self' effects,
    run_ticks frames self = Returns (self', effects) /\
    ladder_inv self' /\
    (escalation_level self <= escalation_level self')%Z /\
    count_snapshots effects =
    if (escalation_level self <=? 2)%Z && (3 <=? escalation_level self')%Z
    then 1%nat else 0%nat.
Proof.
  induction frames as [|f rest IH]; intros self Hinv Hall; simpl.
  - exists self, []. split; [reflexivity|]. split; [exact Hinv|].
    split; [lia|].
    destruct (Z.leb_spec (escalation_level self) 2),
             (Z.leb_spec 3 (escalation_level self)); try reflexivity; lia.
  - inversion Hall as [|? ? Hf Hrest]; subst.
    destruct (guard_tick_returns f self Hinv) as (s1 & e1 & d & Hr & Hinv1).
    rewrite Hr. simpl.
    destruct (IH s1 Hinv1 Hrest) as (s2 & e2 & Hr2 & Hinv2 & Hle2 & Hcount2).
    rewrite Hr2. simpl. exists s2, (e1 ++ e2).
    split; [reflexivity|]. split; [exact Hinv2|].
    rewrite count_snapshots_app, Hcount2.
    destruct (guard_tick_effects _ _ _ _ _ Hr) as [[He Hl]|[_ Hesc]].
    + subst e1. rewrite <- (Hl Hf). split; [lia|reflexivity].
    + destruct (escalation_returns (clock_escalation f)
                  (set_intruder_detected true self)
                  (ladder_inv_set_intruder true self Hinv))
        as (s1' & e1' & Hr' & Hs).
      rewrite Hesc in Hr'. inversion Hr'; subst s1' e1'.
      rewrite (escalation_step_snapshots _ _ _ _ Hs).
      destruct (escalation_step_shape _ _ _ _
                  (ladder_inv_set_intruder true self Hinv) Hs)
        as [[_ Hsame]|(_ & Hup & Hlt)]; simpl in *.
      * subst s1. simpl in *. split; [lia|].
        destruct (Z.eqb_spec (escalation_level self) 2),
                 (Z.eqb_spec (escalation_level self) 3); simpl; try lia;
          reflexivity.
      * split; [lia|].
        destruct (Z.eqb_spec (escalation_level self) 2),
                 (Z.eqb_spec (escalation_level s1) 3),
                 (Z.leb_spec (escalation_level s1) 2),
                 (Z.leb_spec (escalation_level self) 2),
                 (Z.leb_spec 3 (escalation_level s2)); simpl; try lia;
          reflexivity.
Qed.

(** C7, as stated, fails for an episode that ends early: the unknown face is
    confirmed at time 4 (greeting, level 1), a trusted face arrives at time 5
    and resets the agent; the whole episode wrote no snapshot. *)
Lemma episode_without_snapshot :
  let unknown := [[false]] in
  let trusted := [[true]] in
  exists confirmed effects,
    run_ticks [mkFrame unknown 0 0; mkFrame unknown 4 4] init_agent =
      Returns (confirmed, effects) /\
    intruder_detected confirmed = true /\
    escalation_level confirmed = 1%Z /\
    guard_tick (mkFrame trusted 5 5) confirmed =
      Returns (init_agent, [], TrustedPresent) /\
    run_ticks [mkFrame unknown 0 0; mkFrame unknown 4 4; mkFrame trusted 5 5]
      init_agent = Returns (init_agent, effects) /\
    count_snapshots effects = 0%nat.
Proof.
  eexists _, _. repeat split.
Qed.

(** C7, amended. In a run of ticks without a trusted face that starts an
    episode (level 0), the snapshot is written at most once: exactly once if
    the ladder got to level 3, not at all otherwise. A tick writes a snapshot
    only when it moves the level from 2 to 3, and a tick that does so writes
    exactly one, to the path [intruder_<n>.jpg] where [n] is [int] of the
    time read by that escalation tick - its whole number of seconds when that
    time is not negative. *)
Theorem snapshot_at_level_3 :
  (forall (frames : list Frame) (self : SentinelAgent),
      escalation_level self = 0%Z -> Forall untrusted frames ->
      exists self' effects,
        run_ticks frames self = Returns (self', effects) /\
        count_snapshots effects =
        if (3 <=? escalation_level self')%Z then 1%nat else 0%nat) /\
  (forall (f : Frame) (self self' : SentinelAgent) (effects : list Effect)
          (decision : PresenceDecision),
      guard_tick f self = Returns (self', effects, decision) ->
      (forall path, In (Imwrite path) effects ->
         escalation_level self = 2%Z /\ escalation_level self' = 3%Z /\
         path = ("intruder_" ++ python_str (python_int (clock_escalation f))
                 ++ ".jpg")%string) /\
      (escalation_level self = 2%Z -> escalation_level self' = 3%Z ->
       count_snapshots effects = 1%nat)) /\
  (forall now : Q, 0 <= now ->
      inject_Z (python_int now) <= now < inject_Z (python_int now + 1)).
Proof.
  split; [|split].
  - intros frames self H0 Hall.
    assert (Hinv : ladder_inv self) by (split; [lia|congruence]).
    destruct (run_untrusted_snapshots frames self Hinv Hall)
      as (s' & ev & Hr & _ & _ & Hcount).
    exists s', ev. split; [exact Hr|]. rewrite Hcount, H0. reflexivity.
  - intros f self self' effects decision Hrun.
    destruct (guard_tick_effects _ _ _ _ _ Hrun) as [[He Hl]|[Hu Hesc]].
    + subst effects. split; [intros path []|].
      intros H2 H3.
      destruct (trusted_present (face_encodings f)) eqn:Ht.
      * rewrite (guard_tick_trusted _ _ Ht) in Hrun. inversion Hrun; subst.
        discriminate.
      * specialize (Hl Ht). lia.
    + apply escalation_snapshot in Hesc as [Hin Hout]. simpl in Hin, Hout.
      split; [exact Hin|]. intros H2 H3. now rewrite (Hout H2 H3).
  - intros now Hnow. apply (python_int_floor now Hnow).
Qed.

Lemma snapshot_at_level_3_witness :
  let unknown := [[false]] in
  (exists self' effects,
      run_ticks [mkFrame unknown 0 0; mkFrame unknown 4 4; mkFrame unknown 15 15;
                 mkFrame unknown 26 (53 # 2)] init_agent =
        Returns (self', effects) /\
      count_snapshots effects =
      if (3 <=? escalation_level self')%Z then 1%nat else 0%nat) /\
  inject_Z (python_int (53 # 2)) <= 53 # 2 < inject_Z (python_int (53 # 2) + 1).
Proof.
  split.
  - apply (proj1 snapshot_at_level_3).
    + reflexivity.
    + repeat constructor.
  - apply (proj2 (proj2 snapshot_at_level_3)). discriminate.
Defined.

(** ** C3: when [intruder_detected] can be true *)

Lemma run_ticks_app (a b : list Frame) :
  forall self,
    run_ticks (a ++ b) self =
    let* (self1, effects1) := run_ticks a self in
    let* (self2, effects2) := run_ticks b self1 in
    Returns (self2, effects1 ++ effects2).
Proof.
  induction a as [|f a IH]; intro self; simpl.
  - destruct (run_ticks b self) as [[s2 e2]|]; reflexivity.
  - destruct (guard_tick f self) as [[[s1 e1] d]|]; simpl; [|reflexivity].
    rewrite IH.
    destruct (run_ticks a s1) as [[s2 e2]|]; simpl; [|reflexivity].
    destruct (run_ticks b s2) as [[s3 e3]|]; simpl; [|reflexivity].
    now rewrite app_assoc.
Qed.

Lemma guard_tick_intruder (f : Frame) (self self' : SentinelAgent)
  (effects : list Effect) (decision : PresenceDecision) :
  guard_tick f self = Returns (self', effects, decision) ->
  intruder_detected self' = true ->
  untrusted f /\
  (intruder_detected self = true \/
   exists since,
     unrecognized_face_start_time self = Some since /\
     GRACE_PERIOD_SECONDS < clock_loop f - since /\
     face_encodings f <> [] /\
     unrecognized_face_start_time self' = Some since).
Proof.
  intros Hrun Hint. unfold untrusted.
  destruct (trusted_present (face_encodings f)) eqn:Ht.
  { rewrite (guard_tick_trusted _ _ Ht) in Hrun. inversion Hrun; subst.
    discriminate. }
  split; [reflexivity|].
  destruct (truthy (face_encodings f)) eqn:Hn.
  - rewrite (guard_tick_unknown _ _ Ht Hn) in Hrun.
    destruct (unrecognized_face_start_time self) as [since|] eqn:Hsince.
    + destruct (Qgtb (double_sub (clock_loop f) since) GRACE_PERIOD_SECONDS)
        eqn:Hcmp.
      * right. exists since. apply Qgtb_true in Hcmp.
        split; [reflexivity|]. split; [exact (grace_exceeded _ _ Hcmp)|].
        split; [destruct (face_encodings f); [discriminate|congruence]|].
        destruct (handle_intruder_escalation (clock_escalation f)
                    (set_intruder_detected true self))
          as [[s1 e1]|] eqn:Hesc; [|discriminate].
        simpl in Hrun. inversion Hrun; subst.
        revert Hesc. escalation_branches;
          intro H; try discriminate; inversion H; subst; simpl; exact Hsince.
      * inversion Hrun; subst. now left.
    + inversion Hrun; subst. now left.
  - rewrite (guard_tick_no_faces _ _ (truthy_false_nil _ Hn)) in Hrun.
    inversion Hrun; subst. now left.
Qed.

(** C3, as stated, fails: after an unknown face was confirmed at time 4, a
    frame without faces at time 5 clears the timer and keeps the flag. *)
Lemma intruder_without_timer :
  exists self effects,
    run_ticks [mkFrame [[false]] 0 0; mkFrame [[false]] 4 4; mkFrame [] 5 5]
      init_agent = Returns (self, effects) /\
    intruder_detected self = true /\
    unrecognized_face_start_time self = None.
Proof.
  eexists _, _. repeat split.
Qed.

(** C3, amended. In every state reached by a run of ticks from the initial
    agent, [intruder_detected] being true implies that some tick of the run
    confirmed it: that tick saw faces, none of them trusted, found the
    timer set and read a time strictly more than [GRACE_PERIOD_SECONDS]
    after it, and left the timer as it was; and no tick since saw a trusted
    face. (The timer may have been cleared or restarted since.) *)
Theorem intruder_was_confirmed (frames : list Frame) (self : SentinelAgent)
  (effects : list Effect) :
  run_ticks frames init_agent = Returns (self, effects) ->
  intruder_detected self = true ->
  exists before f after self0 effects0 self1 effects1 decision since,
    frames = before ++ f :: after /\
    run_ticks before init_agent = Returns (self0, effects0) /\
    guard_tick f self0 = Returns (self1, effects1, decision) /\
    unrecognized_face_start_time self0 = Some since /\
    GRACE_PERIOD_SECONDS < clock_loop f - since /\
    face_encodings f <> [] /\
    unrecognized_face_start_time self1 = Some since /\
    intruder_detected self1 = true /\
    Forall untrusted (f :: after).
Proof.
  revert self effects.
  induction frames as [|f frames IH] using rev_ind; intros self effects Hrun Hint.
  - simpl in Hrun. inversion Hrun; subst. discriminate.
  - rewrite run_ticks_app in Hrun.
    destruct (run_ticks frames init_agent) as [[s1 e1]|] eqn:Hpre;
      [|discriminate].
    simpl in Hrun.
    destruct (guard_tick f s1) as [[[s2 e2] d]|] eqn:Htick; [|discriminate].
    simpl in Hrun. inversion Hrun; subst.
    destruct (guard_tick_intruder _ _ _ _ _ Htick Hint)
      as [Hu [Hbefore|(since & Hs & Hc & Hne & Hs')]].
    + destruct (IH s1 e1 eq_refl Hbefore)
        as (b & f0 & a & s0 & e0 & s0' & e0' & d0 & since & Hsplit & Hb & Ht0
            & Hs & Hc & Hne & Hs' & Hi & Hall).
      exists b, f0, (a ++ [f]), s0, e0, s0', e0', d0, since.
      repeat split; auto.
      * rewrite Hsplit, <- app_assoc. reflexivity.
      * change (f0 :: a ++ [f]) with ((f0 :: a) ++ [f]).
        apply Forall_app. split; [exact Hall|]. now constructor.
    + exists frames, f, [], s1, e1, self, e2, d, since.
      repeat split; auto.
Qed.

Lemma intruder_was_confirmed_witness :
  exists before f after self0 effects0 self1 effects1 decision since,
    [mkFrame [[false]] 0 0; mkFrame [[false]] 4 4; mkFrame [] 5 5] =
      before ++ f :: after /\
    run_ticks before init_agent = Returns (self0, effects0) /\
    guard_tick f self0 = Returns (self1, effects1, decision) /\
    unrecognized_face_start_time self0 = Some since /\
    GRACE_PERIOD_SECONDS < clock_loop f - since /\
    face_encodings f <> [] /\
    unrecognized_face_start_time self1 = Some since /\
    intruder_detected self1 = true /\
    Forall untrusted (f :: after).
Proof.
  apply (intruder_was_confirmed
           [mkFrame [[false]] 0 0; mkFrame [[false]] 4 4; mkFrame [] 5 5]
           (mkAgent true (Some 4) 1 None) [Speak MSG_HELLO]);
    reflexivity.
Defined.

(** ** C8: what is left when a guard cycle stops *)

Lemma guard_loop_agent (reads : list CameraRead) :
  forall self,
    agent_after_loop (guard_loop reads self) =
    agent_after (run_ticks (processed reads) self).
Proof.
  induction reads as [|r rest IH]; intro self; simpl; [reflexivity|].
  destruct (ret r); simpl; [|reflexivity].
  destruct (Z.land (waitKey r) 255 =? ord_q)%Z; simpl.
  - destruct (guard_tick (frame r) self) as [[[s1 e1] d]|]; reflexivity.
  - destruct (guard_tick (frame r) self) as [[[s1 e1] d]|]; simpl;
      [|reflexivity].
    specialize (IH s1).
    destruct (guard_loop rest s1) as [[[s2 e2] b]|];
      destruct (run_ticks (processed rest) s1) as [[s3 e3]|];
      simpl in *; congruence.
Qed.

(** C8, as stated, fails: a cycle stopped with [q] right after the intrusion
    was confirmed returns with the flag set, level 1 and both timestamps
    recorded; and the next cycle started by the command loop, seeing an
    unknown face at time 20, goes on from there (second warning at once,
    without greeting or grace period). *)
Lemma stopped_cycle_keeps_episode :
  let unknown := [[false]] in
  let first := mkSession "guard my room" true
                 [mkRead true (mkFrame unknown 0 0) (-1);
                  mkRead true (mkFrame unknown 4 4) 113] in
  let second := mkSession "guard my room" true
                 [mkRead true (mkFrame unknown 20 20) 113] in
  agent_after_loop (start_guard_mode true (reads first) init_agent) =
    Returns (mkAgent true (Some 4) 1 (Some 0)) /\
  mkAgent true (Some 4) 1 (Some 0) <> init_agent /\
  command_loop [first; second] init_agent =
    Returns (mkAgent true (Some 20) 2 (Some 0),
             [Speak "Guard mode activated. I am now monitoring the room.";
              Speak MSG_HELLO;
              Speak "Guard mode deactivated.";
              Speak "I am ready for the next command.";
              Speak "Guard mode activated. I am now monitoring the room.";
              Speak MSG_NOT_TRUSTED;
              Speak "Guard mode deactivated.";
              Speak "I am ready for the next command."],
             false).
Proof.
  split; [reflexivity|]. split; [discriminate|]. reflexivity.
Qed.

(** C8, amended. Stopping a guard cycle resets nothing: the agent a cycle
    leaves is the agent left by the ticks it processed, run from the agent it
    started with (and the agent itself when the webcam could not be opened);
    and the next cycle started by the command loop starts with the agent the
    previous cycle left. *)
Theorem guard_cycle_keeps_state :
  (forall (opened : bool) (reads : list CameraRead) (self : SentinelAgent),
      agent_after_loop (start_guard_mode opened reads self) =
      if opened then agent_after (run_ticks (processed reads) self)
      else Returns self) /\
  (forall (first second : Session) (self self1 : SentinelAgent)
          (effects1 : list Effect),
      contains "guard my room" (command first) = true ->
      contains "guard my room" (command second) = true ->
      start_guard_mode (isOpened first) (reads first) self =
        Returns (self1, effects1, true) ->
      agent_after_loop (command_loop [first; second] self) =
      agent_after_loop (start_guard_mode (isOpened second) (reads second) self1)).
Proof.
  split.
  - intros opened reads self. unfold start_guard_mode.
    destruct opened; simpl; [|reflexivity].
    rewrite <- guard_loop_agent.
    destruct (guard_loop reads self) as [[[s1 e1] [|]]|]; reflexivity.
  - intros first second self self1 effects1 Hc1 Hc2 Hrun. simpl.
    rewrite Hc1, Hrun, Hc2. simpl.
    destruct (start_guard_mode (isOpened second) (reads second) self1)
      as [[[s2 e2] [|]]|]; reflexivity.
Qed.

Lemma guard_cycle_keeps_state_witness :
  let unknown := [[false]] in
  let first := mkSession "please guard my room" true
                 [mkRead true (mkFrame unknown 0 0) (-1);
                  mkRead true (mkFrame unknown 4 4) 113] in
  let second := mkSession "guard my room now" true
                 [mkRead true (mkFrame unknown 20 20) (-1);
                  mkRead false (mkFrame [] 0 0) (-1)] in
  agent_after_loop (command_loop [first; second] init_agent) =
  agent_after_loop
    (start_guard_mode (isOpened second) (reads second)
       (mkAgent true (Some 4) 1 (Some 0))).
Proof.
  intros unknown first second.
  apply (proj2 guard_cycle_keeps_state first second init_agent
           (mkAgent true (Some 4) 1 (Some 0))
           [Speak "Guard mode activated. I am now monitoring the room.";
            Speak MSG_HELLO; Speak "Guard mode deactivated."]);
    reflexivity.
Defined.

(** ** C10: a gap in the middle of an episode *)

Lemma unknown_only_tick (f : Frame) (self : SentinelAgent) :
  unknown_only f ->
  guard_tick f self =
  match unrecognized_face_start_time self with
  | None =>
      Returns (set_unrecognized_face_start_time (Some (clock_loop f)) self,
               [], UnknownPending)
  | Some since =>
      if Qgtb (double_sub (clock_loop f) since) GRACE_PERIOD_SECONDS then
        let* (self', effects) :=
          handle_intruder_escalation (clock_escalation f)
            (set_intruder_detected true self) in
        Returns (self', effects, IntruderConfirmed)
      else Returns (self, [], UnknownPending)
  end.
Proof.
  intros [Hne Hu]. apply guard_tick_unknown; [exact Hu|].
  destruct (face_encodings f); [congruence|reflexivity].
Qed.

Lemma run_ticks_step (f : Frame) (rest : list Frame)
  (self self1 : SentinelAgent) (effects1 : list Effect)
  (decision : PresenceDecision) :
  guard_tick f self = Returns (self1, effects1, decision) ->
  run_ticks (f :: rest) self =
  let* (self2, more) := run_ticks rest self1 in
  Returns (self2, effects1 ++ more).
Proof.
  intro H. simpl. rewrite H. reflexivity.
Qed.

Lemma waiting_ticks (since : Q) (waits : list Frame) (self : SentinelAgent) :
  unrecognized_face_start_time self = Some since ->
  Forall (fun f => unknown_only f /\
                   clock_loop f - since <= GRACE_PERIOD_SECONDS) waits ->
  run_ticks waits self = Returns (self, []).
Proof.
  intros Hsince Hall. induction Hall as [|f rest [Hu Hcmp] _ IH]; simpl.
  - reflexivity.
  - rewrite (unknown_only_tick _ _ Hu), Hsince.
    apply within_grace in Hcmp. rewrite Hcmp. simpl. rewrite IH. reflexivity.
Qed.

(** C10. Take an agent in an active intrusion at level L > 0. After a frame
    without faces, an unknown face that comes back only restarts the timer,
    and as long as no more than [GRACE_PERIOD_SECONDS] passed since it came
    back the ticks do nothing: no escalation tick runs. A later tick is an
    escalation tick only if more than [GRACE_PERIOD_SECONDS] passed since the
    face came back, and it is one as soon as the double difference of the two
    timestamps exceeds it; the escalation is then entered at the retained
    level L: it leaves the level at L or L + 1 and never speaks the level-0
    greeting. And any tick that brings a positive level back to 0 saw a
    trusted face. *)
Theorem retained_level_after_gap (self : SentinelAgent)
  (gap back resume : Frame) (waits : list Frame) :
  ladder_inv self ->
  intruder_detected self = true ->
  (0 < escalation_level self)%Z ->
  face_encodings gap = [] ->
  unknown_only back ->
  Forall (fun f => unknown_only f /\
                   clock_loop f - clock_loop back <= GRACE_PERIOD_SECONDS) waits ->
  unknown_only resume ->
  let paused := set_unrecognized_face_start_time (Some (clock_loop back)) self in
  run_ticks (gap :: back :: waits) self = Returns (paused, []) /\
  (clock_loop resume - clock_loop back <= GRACE_PERIOD_SECONDS ->
   guard_tick resume paused = Returns (paused, [], UnknownPending)) /\
  (forall self' effects decision,
      guard_tick resume paused = Returns (self', effects, decision) ->
      decision = IntruderConfirmed \/ effects <> [] ->
      GRACE_PERIOD_SECONDS < clock_loop resume - clock_loop back) /\
  (GRACE_PERIOD_SECONDS < double_sub (clock_loop resume) (clock_loop back) ->
   exists self' effects,
     guard_tick resume paused = Returns (self', effects, IntruderConfirmed) /\
     handle_intruder_escalation (clock_escalation resume) paused =
       Returns (self', effects) /\
     (escalation_level self <= escalation_level self'
      <= escalation_level self + 1)%Z /\
     ~ In (Speak MSG_HELLO) effects) /\
  (forall (f : Frame) (s s' : SentinelAgent) (effects : list Effect)
          (decision : PresenceDecision),
      guard_tick f s = Returns (s', effects, decision) ->
      (0 < escalation_level s)%Z -> escalation_level s' = 0%Z ->
      decision = TrustedPresent /\
      exists matches, In matches (face_encodings f) /\ In true matches).
Proof.
  intros Hinv Hint Hpos Hgap Hback Hwaits Hresume paused.
  assert (Hpaused : set_intruder_detected true paused = paused).
  { unfold paused. destruct self; simpl in *. now subst. }
  assert (Hinvp : ladder_inv paused) by (now apply ladder_inv_set_start).
  split; [|split; [|split; [|split]]].
  - rewrite (run_ticks_step gap _ self _ _ _ (guard_tick_no_faces _ _ Hgap)).
    rewrite (run_ticks_step back waits
               (set_unrecognized_face_start_time None self) paused []
               UnknownPending (unknown_only_tick _ _ Hback)).
    rewrite (waiting_ticks (clock_loop back) waits paused eq_refl Hwaits).
    reflexivity.
  - intro Hcmp. rewrite (unknown_only_tick _ _ Hresume). simpl.
    apply within_grace in Hcmp. now rewrite Hcmp.
  - intros s' ev d. rewrite (unknown_only_tick _ _ Hresume). simpl.
    destruct (Qgtb (double_sub (clock_loop resume) (clock_loop back))
                GRACE_PERIOD_SECONDS) eqn:Hcmp.
    + intros _ _. apply grace_exceeded. now apply Qgtb_true.
    + intros H [Hd|He]; inversion H; subst; congruence.
  - intro Hcmp. rewrite (unknown_only_tick _ _ Hresume). simpl.
    apply Qgtb_true in Hcmp. rewrite Hcmp, Hpaused.
    destruct (escalation_returns (clock_escalation resume) paused Hinvp)
      as (s' & ev & Hr & Hs).
    rewrite Hr. simpl. exists s', ev.
    split; [reflexivity|]. split; [reflexivity|].
    assert (Hl : escalation_level paused = escalation_level self) by reflexivity.
    destruct Hs; simpl in *; (split; [lia|]);
      unfold MSG_HELLO, MSG_NOT_TRUSTED, MSG_NOT_AUTHORIZED, MSG_WARNING;
      intro Hin;
      repeat (destruct Hin as [Hin|Hin]; try discriminate);
      try contradiction; lia.
  - intros f s s' effects decision Hrun Hp H0.
    destruct (only_trusted_lowers _ _ _ _ _ Hrun) as [Hd Ht]; [right; lia|].
    split; [exact Hd|]. now apply trusted_present_iff.
Qed.

Lemma retained_level_after_gap_witness :
  let self := mkAgent true (Some 15) 2 (Some 1) in
  let paused := mkAgent true (Some 15) 2 (Some 17) in
  run_ticks [mkFrame [] 16 16; mkFrame [[false]] 17 17;
             mkFrame [[false]] 18 18; mkFrame [[false]] 20 20] self =
    Returns (paused, []) /\
  exists self' effects,
    guard_tick (mkFrame [[false]] 27 27) paused =
      Returns (self', effects, IntruderConfirmed) /\
    handle_intruder_escalation 27 paused = Returns (self', effects) /\
    (2 <= escalation_level self' <= 2 + 1)%Z /\
    ~ In (Speak MSG_HELLO) effects.
Proof.
  intros self paused.
  assert (Hu : unknown_only (mkFrame [[false]] 17 17))
    by (split; [discriminate|reflexivity]).
  destruct (retained_level_after_gap self
              (mkFrame [] 16 16) (mkFrame [[false]] 17 17)
              (mkFrame [[false]] 27 27)
              [mkFrame [[false]] 18 18; mkFrame [[false]] 20 20])
    as (Hrun & _ & _ & Hresume & _).
  - split; simpl; [lia|]. intros _. now exists 15.
  - reflexivity.
  - reflexivity.
  - reflexivity.
  - exact Hu.
  - repeat constructor; discriminate.
  - split; [discriminate|reflexivity].
  - split; [exact Hrun|]. apply Hresume. reflexivity.
Defined.

(** * Further properties of the monitoring loop *)

Lemma escalation_keeps_presence (now : Q) (self self' : SentinelAgent)
  (effects : list Effect) :
  handle_intruder_escalation now self = Returns (self', effects) ->
  unrecognized_face_start_time self' = unrecognized_face_start_time self /\
  intruder_detected self' = intruder_detected self.
Proof.
  escalation_branches; intro H; try discriminate; inversion H; subst;
    split; reflexivity.
Qed.

Lemma escalation_fires_up (now : Q) (self self' : SentinelAgent)
  (effects : list Effect) :
  handle_intruder_escalation now self = Returns (self', effects) ->
  effects <> [] ->
  escalation_level self' = (escalation_level self + 1)%Z /\
  last_warning_time self' = Some now /\
  count_speaks effects = 1%nat.
Proof.
  escalation_branches; intro H; try discriminate; inversion H; subst;
    intro Hne; try congruence; read_level_tests; simpl;
    repeat split; lia.
Qed.

(** ** A fresh episode after a trusted face *)

(** Whatever the agent's state, once a frame with a trusted face has been
    seen the next episode starts from scratch: the first frame with only
    unknown faces starts the timer, frames read no later than
    [GRACE_PERIOD_SECONDS] after it are silent, and the first frame whose
    time, less the timer as a double difference, exceeds
    [GRACE_PERIOD_SECONDS] speaks the greeting and nothing else, at
    level 1. *)
Theorem fresh_episode_after_trusted (self : SentinelAgent)
  (trusted first confirm : Frame) (waits : list Frame) :
  (exists matches, In matches (face_encodings trusted) /\ In true matches) ->
  unknown_only first ->
  Forall (fun f => unknown_only f /\
                   clock_loop f - clock_loop first <= GRACE_PERIOD_SECONDS) waits ->
  unknown_only confirm ->
  GRACE_PERIOD_SECONDS < double_sub (clock_loop confirm) (clock_loop first) ->
  run_ticks (trusted :: first :: waits) self =
    Returns (mkAgent false None 0 (Some (clock_loop first)), []) /\
  run_ticks (trusted :: first :: waits ++ [confirm]) self =
    Returns (mkAgent true (Some (clock_escalation confirm)) 1
               (Some (clock_loop first)),
             [Speak MSG_HELLO]).
Proof.
  intros Ht Hfirst Hwaits Hconfirm Hcmp.
  apply trusted_present_iff in Ht.
  pose (timing := mkAgent false None 0 (Some (clock_loop first))).
  assert (Hw : run_ticks waits timing = Returns (timing, []))
    by (apply (waiting_ticks (clock_loop first)); [reflexivity|exact Hwaits]).
  split.
  - rewrite (run_ticks_step trusted _ self init_agent [] TrustedPresent
               (guard_tick_trusted _ _ Ht)).
    rewrite (run_ticks_step first _ init_agent timing [] UnknownPending
               (unknown_only_tick _ _ Hfirst)).
    fold timing. rewrite Hw. reflexivity.
  - rewrite (run_ticks_step trusted _ self init_agent [] TrustedPresent
               (guard_tick_trusted _ _ Ht)).
    rewrite (run_ticks_step first _ init_agent timing [] UnknownPending
               (unknown_only_tick _ _ Hfirst)).
    rewrite run_ticks_app, Hw. simpl.
    rewrite (unknown_only_tick _ _ Hconfirm). simpl.
    apply Qgtb_true in Hcmp. rewrite Hcmp. reflexivity.
Qed.

Lemma fresh_episode_after_trusted_witness :
  let unknown := [[false; false]] in
  run_ticks [mkFrame [[false]; [true; false]] 50 50; mkFrame unknown 51 51;
             mkFrame unknown 52 52; mkFrame unknown 54 54;
             mkFrame unknown (109 # 2) 55]
    (mkAgent true (Some 40) 3 (Some 9)) =
  Returns (mkAgent true (Some 55) 1 (Some 51), [Speak MSG_HELLO]).
Proof.
  intro unknown.
  assert (Hu : forall a b, unknown_only (mkFrame unknown a b))
    by (intros; split; [discriminate|reflexivity]).
  apply (proj2 (fresh_episode_after_trusted (mkAgent true (Some 40) 3 (Some 9))
                  (mkFrame [[false]; [true; false]] 50 50)
                  (mkFrame unknown 51 51) (mkFrame unknown (109 # 2) 55)
                  [mkFrame unknown 52 52; mkFrame unknown 54 54]
                  ltac:(exists [true; false]; simpl; auto)
                  (Hu 51 51)
                  ltac:(repeat constructor; try apply Hu; discriminate)
                  (Hu (109 # 2) 55)
                  ltac:(reflexivity))).
Defined.

(** ** The timer restarts, it does not pause *)

Lemma streak_keeps_timer (since : Q) (frames : list Frame) :
  forall self, ladder_inv self ->
  unrecognized_face_start_time self = Some since ->
  Forall unknown_only frames ->
  exists self' effects,
    run_ticks frames self = Returns (self', effects) /\
    ladder_inv self' /\
    unrecognized_face_start_time self' = Some since.
Proof.
  induction frames as [|f rest IH]; intros self Hinv Hsince Hall; simpl.
  - exists self, []. split; [reflexivity|]. now split.
  - inversion Hall as [|? ? Hf Hrest]; subst.
    destruct (guard_tick_returns f self Hinv) as (s1 & e1 & d & Hr & Hinv1).
    assert (Hs1 : unrecognized_face_start_time s1 = Some since).
    { pose proof Hr as Hr'. rewrite (unknown_only_tick _ _ Hf), Hsince in Hr'.
      destruct (Qgtb (double_sub (clock_loop f) since) GRACE_PERIOD_SECONDS).
      - destruct (handle_intruder_escalation (clock_escalation f)
                    (set_intruder_detected true self))
          as [[s2 e2]|] eqn:Hesc; [|discriminate].
        simpl in Hr'. inversion Hr'; subst.
        apply escalation_keeps_presence in Hesc as [Hk _].
        rewrite Hk. exact Hsince.
      - inversion Hr'; subst. exact Hsince. }
    rewrite Hr. simpl.
    destruct (IH s1 Hinv1 Hs1 Hrest) as (s2 & e2 & Hr2 & Hinv2 & Hs2).
    rewrite Hr2. simpl. exists s2, (e1 ++ e2). split; [reflexivity|]. now split.
Qed.

(** At any point of a run, after a frame that is not an unknown-only frame
    (no faces, or a trusted face among them), the timer a streak of
    unknown-only frames leaves behind is the time read at the first frame of
    the streak - however long the unknown face had been there before the
    interruption. *)
Theorem timer_is_streak_start (self : SentinelAgent)
  (before : list Frame) (interruption first : Frame) (more : list Frame) :
  ladder_inv self ->
  face_encodings interruption = [] \/
  (exists matches, In matches (face_encodings interruption) /\ In true matches) ->
  Forall unknown_only (first :: more) ->
  exists self' effects,
    run_ticks (before ++ interruption :: first :: more) self =
      Returns (self', effects) /\
    unrecognized_face_start_time self' = Some (clock_loop first).
Proof.
  intros Hinv Hbreak Hall. inversion Hall as [|? ? Hfirst Hmore]; subst.
  destruct (run_ticks_returns before self Hinv) as (s0 & e0 & Hr0 & Hinv0).
  destruct (guard_tick_returns interruption s0 Hinv0)
    as (s1 & e1 & d1 & Hr1 & Hinv1).
  assert (Hnone : unrecognized_face_start_time s1 = None).
  { destruct Hbreak as [Hnil|Ht].
    - rewrite (guard_tick_no_faces _ _ Hnil) in Hr1. now inversion Hr1.
    - apply trusted_present_iff in Ht.
      rewrite (guard_tick_trusted _ _ Ht) in Hr1. now inversion Hr1. }
  pose (s2 := set_unrecognized_face_start_time (Some (clock_loop first)) s1).
  assert (Hr2 : guard_tick first s1 = Returns (s2, [], UnknownPending)).
  { rewrite (unknown_only_tick _ _ Hfirst), Hnone. reflexivity. }
  destruct (streak_keeps_timer (clock_loop first) more s2
              (ladder_inv_set_start _ _ Hinv1) eq_refl Hmore)
    as (s3 & e3 & Hr3 & _ & Hs3).
  exists s3, (e0 ++ e1 ++ [] ++ e3).
  split; [|exact Hs3].
  rewrite run_ticks_app, Hr0. simpl.
  rewrite Hr1. simpl. rewrite Hr2. simpl. rewrite Hr3. reflexivity.
Qed.

Lemma timer_is_streak_start_witness :
  let unknown := [[false]] in
  exists self' effects,
    run_ticks ([mkFrame unknown 0 0; mkFrame unknown 2 2] ++
               mkFrame [] (5 # 2) (5 # 2) ::
               mkFrame unknown (11 # 4) (11 # 4) :: [mkFrame unknown 4 4])
      init_agent = Returns (self', effects) /\
    unrecognized_face_start_time self' = Some (11 # 4).
Proof.
  intro unknown.
  apply (timer_is_streak_start init_agent
           [mkFrame unknown 0 0; mkFrame unknown 2 2]
           (mkFrame [] (5 # 2) (5 # 2)) (mkFrame unknown (11 # 4) (11 # 4))
           [mkFrame unknown 4 4] ladder_inv_init (or_introl eq_refl)).
  repeat constructor; discriminate.
Defined.

(** ** No warning without the grace period *)

(** A tick speaks or writes only on the confirmed branch: the frame shows
    faces, none trusted, the timer was running and the time read is strictly
    more than [GRACE_PERIOD_SECONDS] after it. Such a tick leaves
    [intruder_detected] set, is one rung up the ladder, records the time read
    by the escalation as [last_warning_time] and speaks exactly once. *)
Theorem no_warning_without_grace (f : Frame) (self self' : SentinelAgent)
  (effects : list Effect) (decision : PresenceDecision) :
  guard_tick f self = Returns (self', effects, decision) ->
  effects <> [] ->
  decision = IntruderConfirmed /\
  face_encodings f <> [] /\
  (forall matches, In matches (face_encodings f) -> ~ In true matches) /\
  (exists since,
      unrecognized_face_start_time self = Some since /\
      GRACE_PERIOD_SECONDS < clock_loop f - since) /\
  intruder_detected self' = true /\
  escalation_level self' = (escalation_level self + 1)%Z /\
  last_warning_time self' = Some (clock_escalation f) /\
  count_speaks effects = 1%nat.
Proof.
  intros Hrun Hne.
  destruct (trusted_present (face_encodings f)) eqn:Ht.
  { rewrite (guard_tick_trusted _ _ Ht) in Hrun. inversion Hrun; subst.
    congruence. }
  destruct (truthy (face_encodings f)) eqn:Hn.
  2:{ rewrite (guard_tick_no_faces _ _ (truthy_false_nil _ Hn)) in Hrun.
      inversion Hrun; subst. congruence. }
  rewrite (guard_tick_unknown _ _ Ht Hn) in Hrun.
  destruct (unrecognized_face_start_time self) as [since|];
    [|inversion Hrun; subst; congruence].
  destruct (Qgtb (double_sub (clock_loop f) since) GRACE_PERIOD_SECONDS) eqn:Hcmp;
    [|inversion Hrun; subst; congruence].
  destruct (handle_intruder_escalation (clock_escalation f)
              (set_intruder_detected true self))
    as [[s1 e1]|] eqn:Hesc; [|discriminate].
  simpl in Hrun. inversion Hrun; subst.
  destruct (escalation_fires_up _ _ _ _ Hesc Hne) as (Hup & Hlast & Hone).
  apply escalation_keeps_presence in Hesc as [_ Hint].
  split; [reflexivity|].
  split; [destruct (face_encodings f); [discriminate|congruence]|].
  split.
  { intros m Hin Hm.
    assert (trusted_present (face_encodings f) = true)
      by (apply trusted_present_iff; now exists m).
    congruence. }
  split; [exists since; split;
            [reflexivity|apply grace_exceeded; now apply Qgtb_true]|].
  repeat split; assumption.
Qed.

Lemma no_warning_without_grace_witness :
  exists since,
    unrecognized_face_start_time (mkAgent true (Some 11) 2 (Some 0)) = Some since /\
    GRACE_PERIOD_SECONDS < clock_loop (mkFrame [[false]] 22 22) - since.
Proof.
  destruct (no_warning_without_grace (mkFrame [[false]] 22 22)
              (mkAgent true (Some 11) 2 (Some 0))
              (mkAgent true (Some 22) 3 (Some 0))
              [Speak MSG_NOT_AUTHORIZED; Imwrite (snapshot_path 22)]
              IntruderConfirmed eq_refl ltac:(discriminate))
    as (_ & _ & _ & H & _).
  exact H.
Defined.

(** ** What a tick sees of the faces *)

(** A tick depends on the faces of its frame only through two facts: whether
    there is any face, and whether one of them matches a trusted encoding.
    In particular the order in which faces are detected, repeated faces and
    further unknown faces beside a trusted one make no difference. *)
Theorem tick_sees_two_facts (f g : Frame) (self : SentinelAgent) :
  clock_loop f = clock_loop g ->
  clock_escalation f = clock_escalation g ->
  (face_encodings f = [] <-> face_encodings g = []) ->
  ((exists matches, In matches (face_encodings f) /\ In true matches) <->
   (exists matches, In matches (face_encodings g) /\ In true matches)) ->
  guard_tick f self = guard_tick g self.
Proof.
  intros Hc He Hnil Htr.
  assert (Ht : trusted_present (face_encodings f) =
               trusted_present (face_encodings g)).
  { rewrite <- !trusted_present_iff in Htr.
    destruct (trusted_present (face_encodings f)),
             (trusted_present (face_encodings g)); try reflexivity.
    - symmetry. now apply Htr.
    - now apply Htr. }
  assert (Hn : truthy (face_encodings f) = truthy (face_encodings g)).
  { destruct (face_encodings f) as [|a l], (face_encodings g) as [|b m];
      try reflexivity.
    - destruct Hnil as [H _]. specialize (H eq_refl). discriminate.
    - destruct Hnil as [_ H]. specialize (H eq_refl). discriminate. }
  unfold guard_tick. rewrite !scan_faces_spec, Ht, Hn, Hc, He. reflexivity.
Qed.

Lemma tick_sees_two_facts_witness :
  guard_tick (mkFrame [[false; true]; [false; false]] 9 9)
    (mkAgent true (Some 5) 2 (Some 1)) =
  guard_tick (mkFrame [[false; false]; [false; false]; [true; true]] 9 9)
    (mkAgent true (Some 5) 2 (Some 1)).
Proof.
  apply (tick_sees_two_facts
           (mkFrame [[false; true]; [false; false]] 9 9)
           (mkFrame [[false; false]; [false; false]; [true; true]] 9 9)
           (mkAgent true (Some 5) 2 (Some 1)) eq_refl eq_refl).
  - split; discriminate.
  - split; intros _.
    + exists [true; true]. simpl. auto.
    + exists [false; true]. simpl. auto.
Defined.

(** ** Counting the warnings *)

Lemma count_speaks_app (a b : list Effect) :
  count_speaks (a ++ b) = (count_speaks a + count_speaks b)%nat.
Proof.
  unfold count_speaks. now rewrite filter_app, List.length_app.
Qed.

(** Between two sightings of a trusted face the agent speaks as many
    warnings as it climbs rungs: over a run of frames without a trusted face
    the number of [Speak] effects is the rise of the level, hence at most
    four. *)
Theorem warnings_counted_by_level (frames : list Frame) (self : SentinelAgent) :
  ladder_inv self ->
  Forall untrusted frames ->
  exists self' effects,
    run_ticks frames self = Returns (self', effects) /\
    Z.of_nat (count_speaks effects) =
      (escalation_level self' - escalation_level self)%Z /\
    (count_speaks effects <= 4)%nat.
Proof.
  intros Hinv Hall.
  assert (H : exists self' effects,
             run_ticks frames self = Returns (self', effects) /\
             ladder_inv self' /\
             Z.of_nat (count_speaks effects) =
               (escalation_level self' - escalation_level self)%Z).
  { revert self Hinv Hall.
    induction frames as [|f rest IH]; intros self Hinv Hall; simpl.
    - exists self, []. split; [reflexivity|]. split; [exact Hinv|].
      simpl. lia.
    - inversion Hall as [|? ? Hf Hrest]; subst.
      destruct (guard_tick_returns f self Hinv) as (s1 & e1 & d & Hr & Hinv1).
      rewrite Hr. simpl.
      destruct (IH s1 Hinv1 Hrest) as (s2 & e2 & Hr2 & Hinv2 & Hcount).
      rewrite Hr2. simpl. exists s2, (e1 ++ e2).
      split; [reflexivity|]. split; [exact Hinv2|].
      rewrite count_speaks_app, Nat2Z.inj_add, Hcount.
      destruct (guard_tick_effects _ _ _ _ _ Hr) as [[He Hl]|[_ Hesc]].
      + subst e1. rewrite (Hl Hf). simpl. lia.
      + destruct e1 as [|x e1].
        * apply escalation_never_lowers in Hesc as [_ Hle].
          destruct (escalation_returns (clock_escalation f)
                      (set_intruder_detected true self)
                      (ladder_inv_set_intruder true self Hinv))
            as (s1' & e1' & Hr' & Hs).
          pose proof Hr as Hr0.
          destruct (guard_tick_effects _ _ _ _ _ Hr0) as [[_ Hl]|[_ Hesc']].
          -- rewrite (Hl Hf). simpl. lia.
          -- rewrite Hesc' in Hr'. inversion Hr'; subst s1' e1'.
             destruct (escalation_step_shape _ _ _ _
                         (ladder_inv_set_intruder true self Hinv) Hs)
               as [[_ Hsame]|(Hne & _)]; [|congruence].
             subst s1. simpl. lia.
        * destruct (escalation_fires_up _ _ _ _ Hesc) as (Hup & _ & Hone);
            [discriminate|].
          rewrite Hone. simpl in Hup. lia. }
  destruct H as (s' & ev & Hr & Hinv' & Hcount).
  exists s', ev. split; [exact Hr|]. split; [exact Hcount|].
  destruct Hinv as [Hrange _], Hinv' as [Hrange' _]. lia.
Qed.

Lemma warnings_counted_by_level_witness :
  let unknown := [[false]] in
  exists self' effects,
    run_ticks [mkFrame unknown 0 0; mkFrame unknown 4 4; mkFrame [] 5 5;
               mkFrame unknown 6 6; mkFrame unknown 20 20; mkFrame unknown 31 31]
      init_agent = Returns (self', effects) /\
    Z.of_nat (count_speaks effects) =
      (escalation_level self' - escalation_level init_agent)%Z /\
    (count_speaks effects <= 4)%nat.
Proof.
  intro unknown.
  apply (warnings_counted_by_level
           [mkFrame unknown 0 0; mkFrame unknown 4 4; mkFrame [] 5 5;
            mkFrame unknown 6 6; mkFrame unknown 20 20; mkFrame unknown 31 31]
           init_agent ladder_inv_init).
  repeat constructor.
Defined.

(** ** How long the ladder takes *)

Lemma on_schedule_inv (greeting : Q) (self : SentinelAgent) :
  on_schedule greeting self -> ladder_inv self.
Proof.
  intros (last & Hl & Hr & _). split; [lia|]. intros _. now exists last.
Qed.

Lemma step_on_schedule (greeting now : Q) (self self' : SentinelAgent)
  (effects : list Effect) :
  on_schedule greeting self ->
  escalation_step now self self' effects ->
  on_schedule greeting self'.
Proof.
  intros Hs Hstep. pose proof Hs as (last & Hl & Hr & H1 & H2 & H3 & H4).
  destruct Hstep as [H|last' H Hl' Hc|last' H Hl' Hc|last' H Hl' Hc|];
    [lia| | | |exact Hs];
    (assert (last' = last) by congruence); subst last'; exists now; simpl;
    (split; [reflexivity|]); (split; [lia|]).
  - specialize (H1 H). subst last. apply exceeds_10 in Hc.
    repeat split; intro; try lia. lra.
  - specialize (H2 H). apply exceeds_10 in Hc.
    repeat split; intro; try lia. lra.
  - specialize (H3 H). apply exceeds_5 in Hc.
    repeat split; intro; try lia. lra.
Qed.

Lemma ticks_on_schedule (greeting : Q) (times : list Q) :
  forall self, on_schedule greeting self ->
  exists log,
    escalation_ticks times self = Returns log /\
    on_schedule greeting (final_agent self log).
Proof.
  induction times as [|now rest IH]; intros self Hs; simpl.
  - now exists [].
  - destruct (escalation_returns now self (on_schedule_inv _ _ Hs))
      as (s1 & e1 & Hr & Hstep).
    rewrite Hr. simpl.
    destruct (IH s1 (step_on_schedule _ _ _ _ _ Hs Hstep)) as (log & Hlog & Hf).
    rewrite Hlog. simpl. eexists. split; [reflexivity|exact Hf].
Qed.

(** In an episode whose greeting was spoken at time [greeting], whatever the
    later escalation ticks, the warning that brought the ladder to level 2
    came more than 10 seconds after the greeting, the one to level 3 (with
    the snapshot) more than 20 seconds after it, and the last one more than
    25 seconds after it; at level 1 the recorded time is the greeting's. *)
Theorem ladder_takes_time (greeting : Q) (times : list Q) (self : SentinelAgent) :
  escalation_level self = 0%Z ->
  exists log last,
    escalation_ticks (greeting :: times) self = Returns log /\
    last_warning_time (final_agent self log) = Some last /\
    (escalation_level (final_agent self log) = 1%Z -> last = greeting) /\
    (escalation_level (final_agent self log) = 2%Z -> 10 < last - greeting) /\
    (escalation_level (final_agent self log) = 3%Z -> 20 < last - greeting) /\
    (escalation_level (final_agent self log) = 4%Z -> 25 < last - greeting).
Proof.
  intro H0. simpl. unfold handle_intruder_escalation. rewrite H0. simpl.
  destruct (ticks_on_schedule greeting times (advance 1 greeting self))
    as (log & Hlog & (last & Hl & _ & H1 & H2 & H3 & H4)).
  { exists greeting. simpl. repeat split; intros; lia || reflexivity. }
  rewrite Hlog. simpl. eexists _, last. split; [reflexivity|]. simpl.
  now repeat split.
Qed.

Lemma ladder_takes_time_witness :
  exists log last,
    escalation_ticks [4; 5; 15; 26; 63 # 2; 40] init_agent = Returns log /\
    last_warning_time (final_agent init_agent log) = Some last /\
    (escalation_level (final_agent init_agent log) = 1%Z -> last = 4) /\
    (escalation_level (final_agent init_agent log) = 2%Z -> 10 < last - 4) /\
    (escalation_level (final_agent init_agent log) = 3%Z -> 20 < last - 4) /\
    (escalation_level (final_agent init_agent log) = 4%Z -> 25 < last - 4).
Proof.
  apply (ladder_takes_time 4 [5; 15; 26; 63 # 2; 40] init_agent). reflexivity.
Defined.

(** * The guard cycle and the command loop *)

Lemma guard_loop_ticks (reads : list CameraRead) :
  forall self,
    guard_loop reads self =
    let* (self', effects) := run_ticks (processed reads) self in
    Returns (self', effects, existsb stops reads).
Proof.
  induction reads as [|r rest IH]; intro self; simpl; [reflexivity|].
  unfold stops at 1. destruct (ret r); simpl; [|reflexivity].
  destruct (Z.land (waitKey r) 255 =? ord_q)%Z; simpl.
  - destruct (guard_tick (frame r) self) as [[[s1 e1] d]|]; simpl;
      [|reflexivity].
    now rewrite app_nil_r.
  - destruct (guard_tick (frame r) self) as [[[s1 e1] d]|]; simpl;
      [|reflexivity].
    rewrite IH.
    destruct (run_ticks (processed rest) s1) as [[s2 e2]|]; reflexivity.
Qed.

(** A guard cycle on an opened camera is the run of ticks over the frames
    it processes (those read before the first failed read, up to and
    including the one after which [q] is pressed): it ends with the agent
    those ticks leave, and it speaks the activation, then exactly the effects
    of those ticks in order, then the deactivation once the loop is left. A
    tick that raises makes the cycle raise. *)
Theorem guard_cycle_is_its_ticks (reads : list CameraRead) (self : SentinelAgent) :
  start_guard_mode true reads self =
  let* (self', effects) := run_ticks (processed reads) self in
  Returns (self',
           Speak "Guard mode activated. I am now monitoring the room." ::
           effects ++
           (if existsb stops reads then [Speak "Guard mode deactivated."] else []),
           existsb stops reads).
Proof.
  unfold start_guard_mode. simpl. rewrite guard_loop_ticks.
  destruct (run_ticks (processed reads) self) as [[s1 e1]|]; simpl;
    [|reflexivity].
  destruct (existsb stops reads); [reflexivity|]. now rewrite app_nil_r.
Qed.

(** The monitoring loop reads nothing after the read that ends it: whatever
    the camera would deliver after a failed read or a [q] key press makes no
    difference. And the frame of a failed read is not analysed: the loop
    ends as it stood after the reads before it. *)
Theorem reads_after_stop_ignored (before : list CameraRead) (r : CameraRead)
  (after : list CameraRead) (self : SentinelAgent) :
  (stops r = true ->
   guard_loop (before ++ r :: after) self = guard_loop (before ++ [r]) self) /\
  (ret r = false ->
   guard_loop (before ++ r :: after) self =
   let* (self', effects, _) := guard_loop before self in
   Returns (self', effects, true)).
Proof.
  split.
  - intro Hstop. revert self.
    induction before as [|b before IH]; intro self; simpl.
    + unfold stops in Hstop. destruct (ret r); simpl in *; [|reflexivity].
      rewrite Hstop. reflexivity.
    + destruct (ret b); simpl; [|reflexivity].
      destruct (guard_tick (frame b) self) as [[[s1 e1] d]|]; simpl;
        [|reflexivity].
      destruct (Z.land (waitKey b) 255 =? ord_q)%Z; [reflexivity|].
      now rewrite IH.
  - intro Hret. revert self.
    induction before as [|b before IH]; intro self; simpl.
    + rewrite Hret. reflexivity.
    + destruct (ret b); simpl; [|reflexivity].
      destruct (guard_tick (frame b) self) as [[[s1 e1] d]|]; simpl;
        [|reflexivity].
      destruct (Z.land (waitKey b) 255 =? ord_q)%Z; [reflexivity|].
      rewrite IH.
      destruct (guard_loop before s1) as [[[s2 e2] x]|]; reflexivity.
Qed.

Lemma reads_after_stop_ignored_witness :
  let unknown := mkFrame [[false]] in
  guard_loop ([mkRead true (unknown 0 0) (-1)] ++
              mkRead true (unknown 4 4) (113 + 256) ::
              [mkRead true (unknown 20 20) 0]) init_agent =
  guard_loop ([mkRead true (unknown 0 0) (-1)] ++
              [mkRead true (unknown 4 4) (113 + 256)]) init_agent.
Proof.
  intro unknown.
  apply (proj1 (reads_after_stop_ignored [mkRead true (unknown 0 0) (-1)]
                  (mkRead true (unknown 4 4) (113 + 256))
                  [mkRead true (unknown 20 20) 0] init_agent)).
  reflexivity.
Defined.

(** Over the whole command loop the agent is only ever changed by ticks, and
    by all of them in a row: the agent the loop ends with is the one left by
    a single run of ticks over the frames of all its guard cycles, one cycle
    after the other. No command and no start or stop of a cycle touches the
    state in between. *)
Theorem command_loop_is_one_run (sessions : list Session) (self : SentinelAgent) :
  agent_after_loop (command_loop sessions self) =
  agent_after (run_ticks (frames_of sessions) self).
Proof.
  revert self. induction sessions as [|c rest IH]; intro self; simpl;
    [reflexivity|].
  destruct (contains "guard my room" (command c)).
  - unfold start_guard_mode. destruct (isOpened c); simpl.
    + rewrite guard_loop_ticks, run_ticks_app.
      destruct (run_ticks (processed (reads c)) self) as [[s1 e1]|]; simpl;
        [|reflexivity].
      destruct (existsb stops (reads c)); simpl; [|reflexivity].
      specialize (IH s1).
      destruct (command_loop rest s1) as [[[s2 e2] x]|];
        destruct (run_ticks (frames_of rest) s1) as [[s3 e3]|];
        simpl in *; congruence.
    + specialize (IH self).
      destruct (command_loop rest self) as [[[s2 e2] x]|];
        destruct (run_ticks (frames_of rest) self) as [[s3 e3]|];
        simpl in *; congruence.
  - destruct (contains "exit" (command c) || contains "stop" (command c));
      [reflexivity|apply IH].
Qed.

(** ** Commands *)

Lemma prefix_iff (s1 s2 : string) :
  prefix s1 s2 = true <-> exists post, s2 = (s1 ++ post)%string.
Proof.
  revert s2. induction s1 as [|a s1 IH]; intro s2; simpl.
  - destruct s2; split; eauto.
  - destruct s2 as [|b s2]; simpl.
    + split; [discriminate|]. intros [post H]. discriminate.
    + destruct (ascii_dec a b) as [->|Hne].
      * rewrite IH. split; intros [post H]; exists post.
        -- now rewrite H.
        -- now inversion H.
      * split; [discriminate|]. intros [post H]. inversion H. congruence.
Qed.

(** [contains] is the substring test of Python's [in]. *)
Lemma contains_iff (needle s : string) :
  contains needle s = true <->
  exists pre post, s = (pre ++ needle ++ post)%string.
Proof.
  unfold contains. induction s as [|b s IH]; cbn [index].
  - destruct needle as [|a needle]; split; try discriminate; try reflexivity.
    + intros _. now exists EmptyString, EmptyString.
    + intros (pre & post & H). destruct pre; simpl in H; discriminate.
  - destruct (prefix needle (String b s)) eqn:Hp.
    + split; [|reflexivity]. intros _.
      apply prefix_iff in Hp as [post Hp]. now exists EmptyString, post.
    + split.
      * destruct (index 0 needle s); [|discriminate]. intros _.
        destruct (proj1 IH eq_refl) as (pre & post & H).
        exists (String b pre), post. simpl. now rewrite H.
      * intros ([|a pre] & post & H).
        -- assert (prefix needle (String b s) = true)
             by (apply prefix_iff; now exists post).
           congruence.
        -- inversion H; subst.
           destruct (index 0 needle (pre ++ needle ++ post)); [reflexivity|].
           apply IH. now exists pre, post.
Qed.

(** How [run] reads a command, as substrings. A command in which
    "guard my room" occurs starts a guard cycle, also when "exit" or "stop"
    occurs in it as well. A command without that phrase in which "exit" or
    "stop" occurs anywhere - inside a longer word too - ends the loop: one
    goodbye is spoken, the agent is unchanged and nothing further is heard.
    Any other command is passed over. *)
Theorem command_dispatch (c : Session) (rest : list Session) (self : SentinelAgent) :
  ((exists pre post, command c = (pre ++ "guard my room" ++ post)%string) ->
   command_loop (c :: rest) self =
   let* (self1, effects, exited) :=
     start_guard_mode (isOpened c) (reads c) self in
   if exited then
     let* (self2, more, stopped) := command_loop rest self1 in
     Returns (self2, effects ++ Speak "I am ready for the next command." :: more,
              stopped)
   else Returns (self1, effects, false)) /\
  ((forall pre post, command c <> (pre ++ "guard my room" ++ post)%string) ->
   (exists pre post, command c = (pre ++ "exit" ++ post)%string \/
                     command c = (pre ++ "stop" ++ post)%string) ->
   command_loop (c :: rest) self =
   Returns (self, [Speak "Shutting down. Goodbye!"], true)) /\
  ((forall pre post, command c <> (pre ++ "guard my room" ++ post)%string /\
                     command c <> (pre ++ "exit" ++ post)%string /\
                     command c <> (pre ++ "stop" ++ post)%string) ->
   command_loop (c :: rest) self = command_loop rest self).
Proof.
  assert (Hno : forall needle,
             (forall pre post, command c <> (pre ++ needle ++ post)%string) ->
             contains needle (command c) = false).
  { intros needle H. destruct (contains needle (command c)) eqn:E;
      [|reflexivity].
    apply contains_iff in E as (pre & post & E). destruct (H pre post E). }
  split; [|split].
  - intro Hg. apply contains_iff in Hg. simpl. rewrite Hg. reflexivity.
  - intros Hg (pre & post & Hs). simpl. rewrite (Hno _ Hg).
    assert (Hx : contains "exit" (command c) || contains "stop" (command c) = true).
    { apply orb_true_iff.
      destruct Hs as [Hs|Hs]; [left|right];
        apply contains_iff; now exists pre, post. }
    rewrite Hx. reflexivity.
  - intro H. simpl.
    rewrite (Hno "guard my room"%string), (Hno "exit"%string),
      (Hno "stop"%string); try reflexivity;
      intros pre post; apply H.
Qed.

Lemma command_dispatch_witness :
  command_loop
    [mkSession "please stop and guard my room" false [];
     mkSession "what is the weather" true [];
     mkSession "you are unstoppable" true [];
     mkSession "guard my room" true []] init_agent =
  Returns (init_agent,
           [Speak "Guard mode activated. I am now monitoring the room.";
            Speak "Error: Could not access the webcam.";
            Speak "I am ready for the next command.";
            Speak "Shutting down. Goodbye!"],
           true).
Proof.
  rewrite (proj1 (command_dispatch
                    (mkSession "please stop and guard my room" false []) _
                    init_agent)).
  2:{ now exists "please stop and "%string, EmptyString. }
  reflexivity.
Defined.

Lemma irrelevant_is_skipped (c : Session) (rest : list Session)
  (self : SentinelAgent) :
  is_relevant c = false ->
  command_loop (c :: rest) self = command_loop rest self.
Proof.
  unfold is_relevant. intro H.
  apply orb_false_iff in H as [H Hstop]. apply orb_false_iff in H as [Hg He].
  simpl. now rewrite Hg, He, Hstop.
Qed.

Lemma command_loop_cons_ext (c : Session) (l1 l2 : list Session) :
  (forall self, command_loop l1 self = command_loop l2 self) ->
  forall self, command_loop (c :: l1) self = command_loop (c :: l2) self.
Proof.
  intros H self. simpl.
  destruct (contains "guard my room" (command c)).
  - destruct (start_guard_mode (isOpened c) (reads c) self)
      as [[[s1 e1] [|]]|]; simpl; try reflexivity.
    now rewrite H.
  - destruct (contains "exit" (command c) || contains "stop" (command c));
      [reflexivity|apply H].
Qed.

(** A failed attempt to listen - timeout, unintelligible audio or the speech
    service out of reach - is as if it had not happened: leaving these
    attempts out of the input changes neither the agent nor anything [run]
    says, nor whether it has stopped. *)
Theorem failed_listening_is_retried (lower : string -> string)
  (inputs : list (Heard * bool * list CameraRead)) (self : SentinelAgent) :
  run lower
    (filter (fun input => match fst (fst input) with
                          | Transcript _ => true
                          | _ => false
                          end) inputs) self =
  run lower inputs self.
Proof.
  unfold run. f_equal. revert self.
  induction inputs as [|[[h opened] camera] rest IH]; intro self;
    [reflexivity|].
  destruct h; cbn [filter fst snd map].
  - apply command_loop_cons_ext. exact IH.
  - rewrite irrelevant_is_skipped by reflexivity. apply IH.
  - rewrite irrelevant_is_skipped by reflexivity. apply IH.
  - rewrite irrelevant_is_skipped by reflexivity. apply IH.
Qed.

(** * Trusted faces *)

Lemma load_files_result {E : Type} (lower : string -> string)
  (listing : list (string * ImageFile E)) :
  forall registry,
    load_files lower listing registry =
    if existsb (fatal lower) listing then LoadFails UncaughtError
    else Loaded
           {| known_face_encodings :=
                known_face_encodings registry ++
                map snd (keep_accepted lower listing);
              known_face_names :=
                known_face_names registry ++
                map fst (keep_accepted lower listing) |}.
Proof.
  induction listing as [|[filename file] rest IH]; intro registry.
  - simpl. rewrite !app_nil_r. now destruct registry.
  - cbn [load_files existsb keep_accepted]. unfold fatal at 1. unfold accepted.
    cbn [fst snd].
    destruct (has_image_extension lower filename); cbn [andb orb].
    + destruct file as [[|encoding others]| |]; cbn [orb]; try apply IH.
      * rewrite IH. destruct (existsb (fatal lower) rest); [reflexivity|].
        cbn [known_face_encodings known_face_names map fst snd].
        now rewrite <- !app_assoc.
      * reflexivity.
    + apply IH.
Qed.

(** What [load_trusted_faces] leaves in the two lists, added after what was
    there. If no image file is unreadable, every entry with an image
    extension and at least one detected face contributes, in directory
    order, its name (file name without extension, underscores as spaces) and
    the encoding of its first face; entries without an image extension,
    without a face or without a file behind them are passed over. If some
    image file is unreadable the load ends in an uncaught exception; files
    without an image extension are never opened, readable or not. *)
Theorem load_trusted_faces_result {E : Type} (lower : string -> string)
  (listing : list (string * ImageFile E)) (registry : TrustRegistry E) :
  ((forall filename, In (filename, Unreadable) listing ->
                     has_image_extension lower filename = false) ->
   load_trusted_faces lower (Some listing) registry =
   Loaded
     {| known_face_encodings :=
          known_face_encodings registry ++ map snd (keep_accepted lower listing);
        known_face_names :=
          known_face_names registry ++ map fst (keep_accepted lower listing) |}) /\
  ((exists filename, In (filename, Unreadable) listing /\
                     has_image_extension lower filename = true) ->
   load_trusted_faces lower (Some listing) registry = LoadFails UncaughtError).
Proof.
  unfold load_trusted_faces. rewrite load_files_result. split.
  - intro Hok. destruct (existsb (fatal lower) listing) eqn:Hf; [|reflexivity].
    apply existsb_exists in Hf as ([filename file] & Hin & Hfatal).
    unfold fatal in Hfatal. cbn [fst snd] in Hfatal.
    apply andb_prop in Hfatal as [Hext Hfile].
    destruct file; try discriminate.
    rewrite (Hok filename Hin) in Hext. discriminate.
  - intros (filename & Hin & Hext).
    assert (Hf : existsb (fatal lower) listing = true).
    { apply existsb_exists. exists (filename, Unreadable). split; [exact Hin|].
      unfold fatal. cbn [fst snd]. now rewrite Hext. }
    now rewrite Hf.
Qed.

Lemma load_trusted_faces_result_witness :
  load_trusted_faces ascii_lower
    (Some [("anna_maria.PNG"%string, Image [7%nat; 8%nat]);
           ("notes.txt"%string, Unreadable);
           ("empty.jpg"%string, Image []);
           ("gone.jpeg"%string, NotFound);
           ("bob.v2.Jpg"%string, Image [9%nat])])
    (mkRegistry [] []) =
  Loaded (mkRegistry [7%nat; 9%nat] ["anna maria"%string; "bob.v2"%string]).
Proof.
  rewrite (proj1 (load_trusted_faces_result ascii_lower _ (mkRegistry [] []))).
  - reflexivity.
  - intros filename [H|[H|[H|[H|[H|[]]]]]]; inversion H. reflexivity.
Defined.

Lemma replace_removes (old new : ascii) (s : string) :
  old <> new -> ~ In old (list_ascii_of_string (replace old new s)).
Proof.
  intro Hne. induction s as [|a s IH]; simpl; [tauto|].
  intros [H|H]; [|exact (IH H)].
  destruct (Ascii.eqb_spec a old); congruence.
Qed.

Lemma keep_accepted_names {E : Type} (lower : string -> string)
  (listing : list (string * ImageFile E)) (name : string) :
  In name (map fst (keep_accepted lower listing)) ->
  exists filename file,
    In (filename, file) listing /\
    has_image_extension lower filename = true /\
    name = name_of_file filename.
Proof.
  induction listing as [|[filename file] rest IH]; simpl; [tauto|].
  unfold accepted at 1. cbn [fst snd].
  destruct (has_image_extension lower filename) eqn:Hext.
  - destruct file as [[|encoding others]| |]; simpl;
      try (intro H; destruct (IH H) as (f & x & Hin & Hx & Hn);
           exists f, x; auto).
    intros [H|H].
    + exists filename, (Image (encoding :: others)). auto.
    + destruct (IH H) as (f & x & Hin & Hx & Hn). exists f, x. auto.
  - intro H. destruct (IH H) as (f & x & Hin & Hx & Hn). exists f, x. auto.
Qed.

(** After [__init__] the two lists are aligned - as many names as encodings -
    and no name contains an underscore; every name is that of a listed file
    with an image extension. *)
Theorem loaded_registry_is_aligned {E : Type} (lower : string -> string)
  (directory : option (list (string * ImageFile E)))
  (registry : TrustRegistry E) (agent : SentinelAgent) :
  SentinelAgent_init lower directory = Loaded (registry, agent) ->
  agent = init_agent /\
  List.length (known_face_names registry) =
    List.length (known_face_encodings registry) /\
  forall name, In name (known_face_names registry) ->
    ~ In "_"%char (list_ascii_of_string name) /\
    exists listing filename file,
      directory = Some listing /\ In (filename, file) listing /\
      has_image_extension lower filename = true /\
      name = name_of_file filename.
Proof.
  unfold SentinelAgent_init, load_trusted_faces.
  destruct directory as [listing|]; [|discriminate].
  rewrite load_files_result.
  destruct (existsb (fatal lower) listing); [discriminate|].
  intro H. inversion H; subst. cbn [known_face_names known_face_encodings app].
  split; [reflexivity|]. split; [now rewrite !length_map|].
  intros name Hin.
  destruct (keep_accepted_names _ _ _ Hin) as (f & x & Hl & Hx & Hn).
  split.
  - subst name. apply replace_removes. discriminate.
  - exists listing, f, x. auto.
Qed.

Lemma loaded_registry_is_aligned_witness :
  List.length (known_face_names (mkRegistry [7%nat; 9%nat]
                                   ["anna maria"%string; "bob.v2"%string])) =
  List.length (known_face_encodings (mkRegistry [7%nat; 9%nat]
                                       ["anna maria"%string; "bob.v2"%string])).
Proof.
  apply (loaded_registry_is_aligned ascii_lower
           (Some [("anna_maria.PNG"%string, Image [7%nat; 8%nat]);
                  ("notes.txt"%string, Unreadable);
                  ("empty.jpg"%string, Image []);
                  ("gone.jpeg"%string, NotFound);
                  ("bob.v2.Jpg"%string, Image [9%nat])])
           (mkRegistry [7%nat; 9%nat] ["anna maria"%string; "bob.v2"%string])
           init_agent eq_refl).
Defined.

(** ** Naming a recognised face *)

Lemma index_True_spec (matches : list bool) :
  True_in matches = true ->
  exists i,
    index_True matches = Some i /\
    nth_error matches i = Some true /\
    (i < List.length matches)%nat /\
    forall j, (j < i)%nat -> nth_error matches j = Some false.
Proof.
  unfold True_in. induction matches as [|b rest IH]; simpl; [discriminate|].
  destruct b; simpl.
  - intros _. exists O. repeat split; try lia.
  - intro H. destruct (IH H) as (i & Hi & Hnth & Hlt & Hbefore).
    exists (S i). rewrite Hi. repeat split; try assumption; try lia.
    intros [|j] Hj; [reflexivity|]. apply Hbefore. lia.
Qed.

(** With the registry that [__init__] loads and a comparison result that
    has one verdict per known encoding, looking up the name of a recognised
    face never raises: a face with no [True] verdict is not recognised, and
    any other face is recognised under the name at the position of its first
    [True] verdict. *)
Theorem name_lookup_in_range {E : Type} (lower : string -> string)
  (directory : option (list (string * ImageFile E)))
  (registry : TrustRegistry E) (agent : SentinelAgent) (matches : list bool) :
  SentinelAgent_init lower directory = Loaded (registry, agent) ->
  List.length matches = List.length (known_face_encodings registry) ->
  (True_in matches = false ->
   recognize (known_face_names registry) matches = NotRecognized) /\
  (True_in matches = true ->
   exists i name,
     recognize (known_face_names registry) matches = RecognizedAs name /\
     nth_error (known_face_names registry) i = Some name /\
     nth_error matches i = Some true /\
     forall j, (j < i)%nat -> nth_error matches j = Some false).
Proof.
  intros Hinit Hlen.
  assert (Haligned : List.length (known_face_names registry) =
                     List.length (known_face_encodings registry)).
  { revert Hinit. unfold SentinelAgent_init, load_trusted_faces.
    destruct directory as [listing|]; [|discriminate].
    rewrite load_files_result.
    destruct (existsb (fatal lower) listing); [discriminate|].
    intro H. inversion H; subst. simpl. now rewrite !length_map. }
  unfold recognize. split; intro Ht; rewrite Ht; [reflexivity|].
  destruct (index_True_spec matches Ht) as (i & Hi & Hnth & Hlt & Hbefore).
  rewrite Hi.
  destruct (nth_error (known_face_names registry) i) as [name|] eqn:Hname.
  - exists i, name. now repeat split.
  - apply nth_error_None in Hname. lia.
Qed.

Lemma name_lookup_in_range_witness :
  exists i name,
    recognize ["anna maria"%string; "bob.v2"%string] [false; true] =
      RecognizedAs name /\
    nth_error ["anna maria"%string; "bob.v2"%string] i = Some name /\
    nth_error [false; true] i = Some true /\
    forall j, (j < i)%nat -> nth_error [false; true] j = Some false.
Proof.
  apply (proj2 (name_lookup_in_range ascii_lower
                  (Some [("anna_maria.PNG"%string, Image [7%nat; 8%nat]);
                         ("notes.txt"%string, Unreadable);
                         ("empty.jpg"%string, Image []);
                         ("gone.jpeg"%string, NotFound);
                         ("bob.v2.Jpg"%string, Image [9%nat])])
                  (mkRegistry [7%nat; 9%nat]
                     ["anna maria"%string; "bob.v2"%string])
                  init_agent [false; true] eq_refl eq_refl)).
  reflexivity.
Defined.

(** * Two more facts about the ladder *)

(** ** After the last warning *)

(** Once the ladder is at level 4 the agent does nothing more about the
    intruder: over any run of frames without a trusted face it returns,
    emits nothing, stays at level 4 and keeps the time of its last warning. *)
Theorem silent_after_last_warning (frames : list Frame) (self : SentinelAgent) :
  ladder_inv self ->
  escalation_level self = 4%Z ->
  Forall untrusted frames ->
  exists self',
    run_ticks frames self = Returns (self', []) /\
    escalation_level self' = 4%Z /\
    last_warning_time self' = last_warning_time self.
Proof.
  revert self. induction frames as [|f rest IH]; intros self Hinv H4 Hall; simpl.
  - now exists self.
  - inversion Hall as [|? ? Hf Hrest]; subst.
    destruct (guard_tick_returns f self Hinv) as (s1 & e1 & d & Hr & Hinv1).
    assert (Hs1 : e1 = [] /\ escalation_level s1 = 4%Z /\
                  last_warning_time s1 = last_warning_time self).
    { destruct (guard_tick_effects _ _ _ _ _ Hr) as [[He Hl]|[_ Hesc]].
      - split; [exact He|]. split; [now rewrite (Hl Hf)|].
        revert Hr. unfold guard_tick. rewrite scan_faces_spec, Hf. simpl.
        destruct (truthy (face_encodings f)); simpl.
        + destruct (unrecognized_face_start_time self) as [since|].
          * destruct (Qgtb (double_sub (clock_loop f) since) GRACE_PERIOD_SECONDS).
            -- destruct (handle_intruder_escalation (clock_escalation f)
                           (set_intruder_detected true self))
                 as [[s2 e2]|] eqn:Hesc; [|discriminate].
               simpl. intro H. inversion H; subst.
               revert Hesc. escalation_branches; intro H'; try discriminate;
                 inversion H'; subst; read_level_tests; simpl in *;
                 try lia; reflexivity.
            -- intro H. now inversion H.
          * intro H. now inversion H.
        + intro H. now inversion H.
      - revert Hesc. escalation_branches; intro H'; try discriminate;
          inversion H'; subst; read_level_tests; simpl in *; try lia;
          now repeat split. }
    destruct Hs1 as (He & Hl & Hw). subst e1. rewrite Hr. simpl.
    destruct (IH s1 Hinv1 Hl Hrest) as (s2 & Hr2 & Hl2 & Hw2).
    rewrite Hr2. simpl. exists s2. split; [reflexivity|].
    split; [exact Hl2|congruence].
Qed.

Lemma silent_after_last_warning_witness :
  exists self',
    run_ticks [mkFrame [[false]] 100 100; mkFrame [] 101 101;
               mkFrame [[false]] 102 102; mkFrame [[false]] 500 500]
      (mkAgent true (Some 32) 4 (Some 0)) = Returns (self', []) /\
    escalation_level self' = 4%Z /\
    last_warning_time self' = Some 32.
Proof.
  apply (silent_after_last_warning
           [mkFrame [[false]] 100 100; mkFrame [] 101 101;
            mkFrame [[false]] 102 102; mkFrame [[false]] 500 500]
           (mkAgent true (Some 32) 4 (Some 0))).
  - split; simpl; [lia|]. intros _. now exists 32.
  - reflexivity.
  - repeat constructor.
Defined.

(** ** Snapshot files *)

Lemma string_length_append (a b : string) :
  String.length (a ++ b) = (String.length a + String.length b)%nat.
Proof.
  induction a as [|c a IH]; simpl; [reflexivity|]. now rewrite IH.
Qed.

Lemma append_cancel_r (x y s : string) :
  (x ++ s)%string = (y ++ s)%string -> x = y.
Proof.
  revert y. induction x as [|a x IH]; intros [|b y] H; simpl in H.
  - reflexivity.
  - apply (f_equal String.length) in H. simpl in H.
    rewrite string_length_append in H. lia.
  - apply (f_equal String.length) in H. simpl in H.
    rewrite string_length_append in H. lia.
  - inversion H; subst. f_equal. now apply IH.
Qed.

Lemma python_str_inj (a b : Z) : python_str a = python_str b -> a = b.
Proof.
  unfold python_str. intro H.
  assert (Hnil : forall z, Z.to_int z <> Decimal.Pos Decimal.Nil /\
                           Z.to_int z <> Decimal.Neg Decimal.Nil).
  { intro z. split; intro Hz; pose proof (f_equal Z.of_int Hz) as Hz';
      rewrite DecimalZ.of_to in Hz'; simpl in Hz'; subst z;
      vm_compute in Hz; discriminate. }
  apply (f_equal NilZero.int_of_string) in H.
  rewrite !NilZero.isi in H by apply Hnil.
  inversion H. now apply DecimalZ.to_int_inj.
Qed.

(** Two snapshots go to the same file exactly when their firing times have
    the same [int] value; in particular snapshots fired at least one second
    apart (at non-negative times) never overwrite each other. *)
Theorem snapshot_files_by_second (a b : Q) :
  (snapshot_path a = snapshot_path b <-> python_int a = python_int b) /\
  (0 <= a -> a + 1 <= b -> snapshot_path a <> snapshot_path b).
Proof.
  assert (Hiff : snapshot_path a = snapshot_path b <->
                 python_int a = python_int b).
  { unfold snapshot_path. split; intro H.
    - apply python_str_inj.
      apply (append_cancel_r _ _ ".jpg"%string).
      simpl in H. now inversion H.
    - now rewrite H. }
  split; [exact Hiff|].
  intros Ha Hab Hsame. apply Hiff in Hsame.
  assert (Hb : 0 <= b) by lra.
  destruct (python_int_floor a Ha) as [Hlo _].
  destruct (python_int_floor b Hb) as [_ Hhi].
  rewrite <- Hsame in Hhi. rewrite inject_Z_plus in Hhi.
  change (inject_Z 1) with 1 in Hhi.
  assert (Hlt : a + 1 < inject_Z (python_int a) + 1) by lra.
  lra.
Qed.

Lemma snapshot_files_by_second_witness :
  snapshot_path (53 # 2) <> snapshot_path (55 # 2).
Proof.
  apply (proj2 (snapshot_files_by_second (53 # 2) (55 # 2))); discriminate.
Defined.
